(** * pyxem.utils.indexation_utils: a shallow embedding and its properties

    The module indexes one diffraction pattern against a simulated library:
    [correlate_library] (template matching), [match_vectors] (vector-pair
    matching, with [_choose_peak_ids] and [_sort_solutions]) and the two
    reducers [crystal_from_template_matching] and
    [crystal_from_vector_matching].

    Conventions of the embedding.
    - A finite float is a rational: scores, errors and coordinates are
      canonical rationals [Qc], so that equal numbers are equal terms.
      Rounding, [inf] and [nan] are outside the model.
    - A raised exception is the [Raise] branch of [result].  Dividing by
      zero raises [ZeroDivisionError] on Python numbers and gives [inf] or
      [nan] on numpy floats; the model raises in both cases, so that every
      value it returns is one the code computes.
    - numpy's [argsort] is the stable insertion sort numpy runs on the small
      partitions of its default sort; [argpartition] and [partition] are
      modelled by the full sort, one of the outputs their contract allows.
    - Functions imported from other modules ([np.linalg.norm],
      [get_angle_cartesian], [get_rotation_matrix_between_vectors], the
      reciprocal lattice, [mat2euler]) are the fields of the class
      [Geometry]. *)

From Stdlib Require Import ZArith QArith Qcanon Qcabs Qround Lia.
From stdpp Require Import base numbers option list sorting gmap strings.

Local Open Scope Qc_scope.

(** ** Exceptions and the error monad *)

Inductive exn : Set := ValueError | IndexError | ZeroDivisionError.

Inductive result (A : Type) : Type :=
  | Ok (a : A)
  | Raise (e : exn).
Arguments Ok {A} a.
Arguments Raise {A} e.

#[global] Instance result_ret : MRet result := fun _ a => Ok a.
#[global] Instance result_bind : MBind result := fun _ _ f m =>
  match m with Ok a => f a | Raise e => Raise e end.
#[global] Instance result_fmap : FMap result := fun _ _ f m =>
  match m with Ok a => Ok (f a) | Raise e => Raise e end.

(** [mapM] in the error monad: the first failure wins. *)
Fixpoint result_mapM {A B} (f : A → result B) (l : list A) : result (list B) :=
  match l with
  | [] => Ok []
  | x :: l' => y ← f x; ys ← result_mapM f l'; Ok (y :: ys)
  end.

(** ** Floats as rationals *)

Definition Qc_of_nat (n : nat) : Qc := Qc_of_Z (Z.of_nat n).

(** Python's [x / y]. *)
Definition py_div (x y : Qc) : result Qc :=
  if decide (y = 0) then Raise ZeroDivisionError else Ok (x / y).

(** [np.rint]: round to the nearest integer, halves to the even one. *)
Definition rint (x : Qc) : Qc :=
  let f := Qfloor x in
  let r := x - Qc_of_Z f in
  if decide (r < 1 / 2) then Qc_of_Z f
  else if decide (1 / 2 < r) then Qc_of_Z (f + 1)
  else if Z.even f then Qc_of_Z f else Qc_of_Z (f + 1).

Definition Qcmax (x y : Qc) : Qc := if decide (x < y) then y else x.
Definition Qcsum (l : list Qc) : Qc := foldr Qcplus 0 l.

(** ** numpy primitives *)

(** [a[i]] on a one-dimensional array, defaulting where the caller has
    already checked the bound. *)
Definition qnth (a : list Qc) (i : nat) : Qc := nth i a 0.

(** One step of insertion sort on an index array: [i] goes before the first
    index holding a strictly greater key. *)
Fixpoint insert_index (a : list Qc) (i : nat) (l : list nat) : list nat :=
  match l with
  | [] => [i]
  | j :: l' =>
      if decide (qnth a i < qnth a j) then i :: j :: l'
      else j :: insert_index a i l'
  end.

Fixpoint argsort_upto (a : list Qc) (n : nat) : list nat :=
  match n with
  | O => []
  | S m => insert_index a m (argsort_upto a m)
  end.

(** [a.argsort()]: indices in ascending order of their keys. *)
Definition argsort (a : list Qc) : list nat := argsort_upto a (length a).

(** [a[idx]] with an index array. *)
Definition take_indices {A} (d : A) (a : list A) (idx : list nat) : list A :=
  (λ i, nth i a d) <$> idx.

(** Bound check shared by [argpartition] and [partition]: a negative [kth]
    counts from the end; an empty array is never checked. *)
Definition kth_in_bounds (n : nat) (kth : Z) : bool :=
  let k := (if kth <? 0 then kth + Z.of_nat n else kth)%Z in
  (n =? 0)%nat || ((0 <=? k)%Z && (k <? Z.of_nat n)%Z).

Definition argpartition (a : list Qc) (kth : Z) : result (list nat) :=
  if kth_in_bounds (length a) kth then Ok (argsort a) else Raise ValueError.

Definition partition (a : list Qc) (kth : Z) : result (list Qc) :=
  if kth_in_bounds (length a) kth then Ok (take_indices 0 a (argsort a))
  else Raise ValueError.

(** [a[i]] with a Python integer index. *)
Definition getitem {A} (a : list A) (i : Z) : result A :=
  let k := (if i <? 0 then i + Z.of_nat (length a) else i)%Z in
  if (k <? 0)%Z then Raise IndexError
  else match a !! Z.to_nat k with
       | Some x => Ok x
       | None => Raise IndexError
       end.

(** [a[-m:]] for a count [m]; [a[-0:]] is the whole array. *)
Definition last_n {A} (m : nat) (a : list A) : list A :=
  if (m =? 0)%nat then a else drop (length a - m) a.

(** Assignment [dst[...] = src] into a slot of [n] cells: shapes must agree,
    a single value broadcasts. *)
Definition assign_slot {A} (n : nat) (src : list A) : result (list A) :=
  if (length src =? n)%nat then Ok src
  else match src with
       | [x]%list => Ok (replicate n x)
       | _ => Raise ValueError
       end.

(** [np.argmax(a)] and [np.argmin(a)]: the first position of the extreme. *)
Fixpoint arg_best_from (better : Qc → Qc → bool) (bi : nat) (b : Qc) (i : nat)
    (l : list Qc) : nat :=
  match l with
  | [] => bi
  | x :: l' =>
      if better x b then arg_best_from better i x (S i) l'
      else arg_best_from better bi b (S i) l'
  end.

Definition arg_best (better : Qc → Qc → bool) (l : list Qc) : result nat :=
  match l with
  | [] => Raise ValueError
  | x :: l' => Ok (arg_best_from better 0 x 1 l')
  end.

Definition argmax : list Qc → result nat :=
  arg_best (λ x b, bool_decide (b < x)).
Definition argmin : list Qc → result nat :=
  arg_best (λ x b, bool_decide (x < b)).

(** [np.max(a)] and [np.min(a)]. *)
Definition np_max (l : list Qc) : result Qc := i ← argmax l; Ok (qnth l i).
Definition np_min (l : list Qc) : result Qc := i ← argmin l; Ok (qnth l i).

(** [np.unique(a).shape[0]] on a column of phase indices. *)
Definition n_unique (l : list nat) : nat := length (remove_dups l).

(** ** Data model *)

(** A cartesian vector or a fractional Miller triple (one row of an
    [(N, 3)] float array), an integer Miller triple, a 3x3 matrix by rows,
    and a Bunge Euler triple. *)
Definition vec3 : Type := Qc * Qc * Qc.
Definition hkl : Type := Z * Z * Z.
Definition mat3 : Type := vec3 * vec3 * vec3.
Definition euler : Type := Qc * Qc * Qc.

Definition vec_add (u v : vec3) : vec3 :=
  let '(a, b, c) := u in let '(x, y, z) := v in (a + x, b + y, c + z).

Definition identity3 : mat3 := ((1, 0, 0), (0, 1, 0), (0, 0, 1)).

(** Row vector times matrix: one row of [peaks.dot(R)]. *)
Definition vec_dot_mat (v : vec3) (R : mat3) : vec3 :=
  let '(x, y, z) := v in
  let '((r00, r01, r02), (r10, r11, r12), (r20, r21, r22)) := R in
  (x * r00 + y * r10 + z * r20,
   x * r01 + y * r11 + z * r21,
   x * r02 + y * r12 + z * r22).

(** *** Template matching *)

(** One entry of a [DiffractionLibrary].  The tensors are indexed
    [in-plane rotation][orientation][reflection]; a pixel coordinate is
    [(x, y)].  numpy arrays are rectangular, so every row of a tensor is
    taken to have the length of the first one. *)
Record library_entry := {
  orientations : list euler;
  pixel_coords : list (list (list (Z * Z)));
  intensities : list (list (list Qc));
  pattern_norms : list (list Qc)
}.

(** One row of the template matching result:
    [phase index, [z, x, z], correlation]. *)
Record template_match := {
  tm_phase : nat;
  tm_orientation : euler;
  tm_correlation : Qc
}.

(** *** Vector matching *)

(** One phase of a [DiffractionVectorLibrary]: the catalog of hkl pairs and,
    row for row, their measurements (length, length, angle). *)
Record vector_phase := {
  indices : list (hkl * hkl);
  measurements : list (Qc * Qc * Qc)
}.

(** A candidate solution as [match_vectors] appends it:
    [R, match_rate, ehkls, error_mean, vector_pair_index]. *)
Record solution := {
  sol_R : mat3;
  sol_match_rate : Qc;
  sol_ehkls : list vec3;
  sol_error_mean : Qc;
  sol_vector_pair_index : nat
}.

(** One row of the vector matching result:
    [phase index, rotation matrix, match rate, error hkls, total error]. *)
Record vector_match := {
  vm_phase : nat;
  vm_R : mat3;
  vm_match_rate : Qc;
  vm_ehkls : list vec3;
  vm_total_error : Qc
}.

(** The [peaks] argument: an [(N, 3)] float array, or a one-dimensional
    object array whose cells hold such arrays. *)
Inductive peaks_arg :=
  | FloatArray (rows : list vec3)
  | ObjectArray (cells : list (list vec3)).

(** *** Crystal map entries *)

(** Values stored in the metrics dictionary. *)
Inductive metric :=
  | MScalar (q : Qc)
  | MArray (a : list vec3).

(** [[phase, np.array((z, x, z)), dict(metrics)]]. *)
Record crystal_entry := {
  ce_phase : nat;
  ce_orientation : euler;
  ce_metrics : gmap string metric
}.

(** ** correlate_library *)

(** [image[y, x]] on the two-dimensional intensity image. *)
Definition image_at (image : list (list Qc)) (xy : Z * Z) : result Qc :=
  row ← getitem image (snd xy); getitem row (fst xy).

(** One cell of [np.sum(image_intensities * intensities, axis=2) / pattern_norms]. *)
Definition correlation_cell (image : list (list Qc))
    (coords : list (Z * Z)) (ints : list Qc) (norm : Qc) : result Qc :=
  vals ← result_mapM (image_at image) coords;
  py_div (Qcsum (zip_with Qcmult vals ints)) norm.

Definition correlation_row (image : list (list Qc))
    (coords : list (list (Z * Z))) (ints : list (list Qc)) (norms : list Qc)
    : result (list Qc) :=
  result_mapM (λ c, correlation_cell image c.1.1 c.1.2 c.2)
    (zip (zip coords ints) norms).

(** The grid [correlations], one row per in-plane rotation. *)
Definition correlations_grid (image : list (list Qc)) (e : library_entry)
    : result (list (list Qc)) :=
  result_mapM (λ c, correlation_row image c.1.1 c.1.2 c.2)
    (zip (zip (pixel_coords e) (intensities e)) (pattern_norms e)).

(** [np.unravel_index(i, (rows, cols))]. *)
Definition unravel_index (i cols : nat) : nat * nat := (i / cols, i mod cols)%nat.

(** The body of the loop over phases: the [n_largest] rows of one phase. *)
Definition correlate_phase (image : list (list Qc)) (n_largest : nat)
    (phase_index : nat) (e : library_entry) : result (list template_match) :=
  grid ← correlations_grid image e;
  let flat := concat grid in
  let n_inplane := length (pixel_coords e) in
  let n_orient := length (default [] (head grid)) in
  part ← argpartition flat (- Z.of_nat n_largest);
  let top0 := last_n n_largest part in
  let top_n_correlations := take_indices 0 flat top0 in
  let top_n_indices :=
    take_indices O top0 (reverse (argsort top_n_correlations)) in
  inplane_rotation_angle ← py_div (Qc_of_Z 360) (Qc_of_nat n_inplane);
  orients ← result_mapM (λ i,
      flat_index ← getitem top_n_indices (Z.of_nat i);
      let '(inplane_index, orientation_index) :=
        unravel_index flat_index n_orient in
      o ← getitem (orientations e) (Z.of_nat orientation_index);
      Ok (vec_add o
            (0, 0, Qc_of_nat inplane_index * inplane_rotation_angle)))
    (seq 0 n_largest);
  scores ← assign_slot n_largest (take_indices 0 flat top_n_indices);
  Ok (zip_with (λ o s, {| tm_phase := phase_index;
                          tm_orientation := o;
                          tm_correlation := s |}) orients scores).

(** [correlate_library image library n_largest mask].  A cell of the result
    that was never written keeps the content [np.empty] gave it: [None]. *)
Definition correlate_library (image : list (list Qc))
    (library : list library_entry) (n_largest : nat) (mask : Z)
    : result (list (option template_match)) :=
  if (mask =? 1)%Z then
    blocks ← result_mapM (λ c, correlate_phase image n_largest c.1 c.2)
                (imap (λ i e, (i, e)) library);
    Ok (Some <$> concat blocks)
  else Ok (replicate (length library * n_largest) None).

(** ** Functions of other modules *)

(** [linalg_norm] is [np.linalg.norm] on one row; [get_angle_cartesian] and
    [get_rotation_matrix_between_vectors] come from
    [pyxem.utils.vector_utils]; [lattice] is what
    [structure.lattice.reciprocal()] returns, with its methods [cartesian]
    and [fractional] applied row by row; [mat2euler] is
    [transforms3d.euler.mat2euler(_, 'rzxz')]. *)
Class Geometry := {
  lattice : Type;
  linalg_norm : vec3 → Qc;
  get_angle_cartesian : vec3 → vec3 → Qc;
  get_rotation_matrix_between_vectors : vec3 → vec3 → vec3 → vec3 → mat3;
  cartesian : lattice → hkl → vec3;
  fractional : lattice → vec3 → vec3;
  mat2euler : mat3 → euler
}.

Section Indexation.
Context `{G : Geometry}.

(** ** _choose_peak_ids *)

(** Lines 169-176.  [math.ceil(n / 2)] on Python 3's true division is
    [(n + 1) / 2] on naturals.  The two slice assignments fill the first
    [n_long_peaks] cells and the remaining cells of [peak_ids]. *)
Definition _choose_peak_ids (peaks : list vec3) (n_peaks_to_index : nat)
    : result (list nat) :=
  let n_peaks_to_index := (length peaks `min` n_peaks_to_index)%nat in
  let n_long_peaks := ((n_peaks_to_index + 1) / 2)%nat in
  let n_short_peaks := (n_peaks_to_index - n_long_peaks)%nat in
  let peak_lengths := linalg_norm <$> peaks in
  long_part ← argpartition peak_lengths (- Z.of_nat n_long_peaks);
  long ← assign_slot (n_long_peaks `min` n_peaks_to_index)%nat
            (last_n n_long_peaks long_part);
  short_part ← argpartition peak_lengths (Z.of_nat n_short_peaks);
  short ← assign_slot (n_peaks_to_index - n_long_peaks)%nat
            (take n_short_peaks short_part);
  Ok (long ++ short).

(** ** _sort_solutions *)

(** Lines 195-196: [solutions[solutions[:, 1].argsort()[::-1][:n_solutions]]],
    column 1 of a solution being its match rate. *)
Definition _sort_solutions (solutions : list solution) (n_solutions : nat)
    : list solution :=
  let n_solutions := (n_solutions `min` length solutions)%nat in
  omap (λ i, solutions !! i)
    (take n_solutions (reverse (argsort (sol_match_rate <$> solutions)))).

(** ** match_vectors *)

(** [itertools.combinations(l, 2)]. *)
Fixpoint combinations2 {A} (l : list A) : list (A * A) :=
  match l with
  | [] => []
  | x :: l' => (pair x <$> l') ++ combinations2 l'
  end.

(** Entrywise operations on a row, its largest entry ([np.max(_, axis=1)])
    and its entries as a list. *)
Definition vec_map2 (f : Qc → Qc → Qc) (u v : vec3) : vec3 :=
  let '(a, b, c) := u in let '(x, y, z) := v in (f a x, f b y, f c z).
Definition vec_map (f : Qc → Qc) (u : vec3) : vec3 :=
  let '(a, b, c) := u in (f a, f b, f c).
Definition vec_max (u : vec3) : Qc := let '(a, b, c) := u in Qcmax (Qcmax a b) c.
Definition vec_entries (u : vec3) : list Qc := let '(a, b, c) := u in [a; b; c].

(** [a[mask]] with a boolean mask. *)
Definition select_mask {A} (mask : list bool) (a : list A) : list A :=
  snd <$> filter (λ c, c.1 = true) (zip mask a).

(** [a.mean()] over all the entries of an [(n, 3)] array. *)
Definition mean_entries (a : list vec3) : Qc :=
  Qcsum (a ≫= vec_entries) / Qc_of_nat (3 * length a).

(** Lines 294-298: [hkls], [rhkls] and [ehkls] of all the peaks under the
    rotation [R]. *)
Definition rotated_hkls (peaks : list vec3) (lattice_recip : lattice)
    (R : mat3) : list vec3 :=
  (λ p, fractional lattice_recip (vec_dot_mat p R)) <$> peaks.

Definition rounded_hkls (hkls : list vec3) : list vec3 := vec_map rint <$> hkls.

Definition hkl_errors (hkls : list vec3) : list vec3 :=
  zip_with (λ h r, vec_map Qcabs (vec_map2 Qcminus h r)) hkls (rounded_hkls hkls).

(** Lines 294-320: index all the peaks under the rotation [R] and keep the
    candidate when more than two peaks are indexed within tolerance.  The
    result is the appended solution with its [rhkls]. *)
Definition evaluate_rotation (peaks : list vec3) (lattice_recip : lattice)
    (index_error_tol : Qc) (vector_pair_index : nat) (R : mat3)
    : option (solution * list vec3) :=
  let hkls := rotated_hkls peaks lattice_recip R in
  let rhkls := rounded_hkls hkls in
  let ehkls := hkl_errors hkls in
  let valid_peak_mask :=
    (λ e, bool_decide (vec_max e < index_error_tol)) <$> ehkls in
  let valid_peak_mask_count := length (filter (λ b, b = true) valid_peak_mask) in
  if (2 <? valid_peak_mask_count)%nat then
    let error_mean := mean_entries (select_mask valid_peak_mask ehkls) in
    let num_peaks := length peaks in
    let match_rate :=
      if (num_peaks =? 0)%nat then 0
      else Qc_of_nat valid_peak_mask_count / Qc_of_nat num_peaks in
    Some ({| sol_R := R;
             sol_match_rate := match_rate;
             sol_ehkls := ehkls;
             sol_error_mean := error_mean;
             sol_vector_pair_index := vector_pair_index |}, rhkls)
  else None.

(** Lines 262-320: the candidates one pair of peaks contributes. *)
Definition pair_candidates (peaks : list vec3) (phase : vector_phase)
    (lattice_recip : lattice) (mag_tol angle_tol index_error_tol : Qc)
    (vector_pair_index : nat) (peak_pair_indices : nat * nat)
    : list (solution * list vec3) :=
  let q1 := nth peak_pair_indices.1 peaks (0, 0, 0) in
  let q2 := nth peak_pair_indices.2 peaks (0, 0, 0) in
  let q1_len := linalg_norm q1 in
  let q2_len := linalg_norm q2 in
  let '(q1, q2, q1_len, q2_len) :=
    if decide (q1_len < q2_len) then (q2, q1, q2_len, q1_len)
    else (q1, q2, q1_len, q2_len) in
  let angle := get_angle_cartesian q1 q2 in
  let tolerance_mask :=
    (λ m : Qc * Qc * Qc,
       bool_decide (Qcabs (m.1.1 - q1_len) < mag_tol)
       && bool_decide (Qcabs (m.1.2 - q2_len) < mag_tol)
       && bool_decide (Qcabs (m.2 - angle) < angle_tol)) <$> measurements phase in
  if (length (filter (λ b, b = true) tolerance_mask) =? 0)%nat then []
  else
    let reference_vectors :=
      (λ hh : hkl * hkl, (cartesian lattice_recip hh.1,
                          cartesian lattice_recip hh.2))
        <$> select_mask tolerance_mask (indices phase) in
    omap (λ ref : vec3 * vec3,
            evaluate_rotation peaks lattice_recip index_error_tol
              vector_pair_index
              (get_rotation_matrix_between_vectors q1 q2 ref.1 ref.2))
         reference_vectors.

(** Lines 245-320: every candidate of one phase, in the order appended. *)
Definition phase_candidates (peaks : list vec3) (phase : vector_phase)
    (lattice_recip : lattice) (mag_tol angle_tol index_error_tol : Qc)
    (n_peaks_to_index : nat) : result (list (solution * list vec3)) :=
  unindexed_peak_ids ← _choose_peak_ids peaks n_peaks_to_index;
  Ok (imap (λ i pr, (i, pr)) (combinations2 unindexed_peak_ids)
        ≫= λ c, pair_candidates peaks phase lattice_recip
                   mag_tol angle_tol index_error_tol c.1 c.2).

(** The dummy row of lines 332-338. *)
Definition dummy_row : vector_match :=
  {| vm_phase := 0;
     vm_R := identity3;
     vm_match_rate := 0;
     vm_ehkls := [];
     vm_total_error := 1 |}.

Definition solution_row (phase_index : nat) (s : solution) : vector_match :=
  {| vm_phase := phase_index;
     vm_R := sol_R s;
     vm_match_rate := sol_match_rate s;
     vm_ehkls := sol_ehkls s;
     vm_total_error := sol_error_mean s |}.

(** Lines 322-338: the [n_best] rows of one phase.  When there is a
    solution, line 327 writes the phase index in column 0 of every slot and
    line 328 the other four columns of the first [n_solutions] slots; when
    slots remain, line 332 overwrites each of them as a whole, column 0
    included, with the dummy values. *)
Definition phase_rows (phase_index n_best : nat) (solutions : list solution)
    : list vector_match :=
  let n_solutions := (n_best `min` length solutions)%nat in
  let top :=
    if (0 <? n_solutions)%nat
    then solution_row phase_index <$> _sort_solutions solutions n_solutions
    else [] in
  let fill :=
    if (n_solutions <? n_best)%nat
    then replicate (n_best - n_solutions) dummy_row
    else [] in
  top ++ fill.

(** The loop over phases, on an [(N, 3)] array of peaks. *)
Definition match_phases (peaks : list vec3)
    (library : list (vector_phase * lattice))
    (mag_tol angle_tol index_error_tol : Qc) (n_peaks_to_index n_best : nat)
    : result (list vector_match * list (list vec3)) :=
  per_phase ← result_mapM (λ c : nat * (vector_phase * lattice),
      cands ← phase_candidates peaks c.2.1 c.2.2
                 mag_tol angle_tol index_error_tol n_peaks_to_index;
      Ok (phase_rows c.1 n_best (fst <$> cands), snd <$> cands))
    (imap (λ i e, (i, e)) library);
  Ok (concat (fst <$> per_phase), concat (snd <$> per_phase)).

(** [match_vectors]: the library is the list of its phases, each with the
    reciprocal lattice of its structure.  An object array that is not
    unwrapped has no second axis, and the first phase raises on it. *)
Definition match_vectors (peaks : peaks_arg)
    (library : list (vector_phase * lattice))
    (mag_tol angle_tol index_error_tol : Qc) (n_peaks_to_index n_best : nat)
    : result (list vector_match * list (list vec3)) :=
  let peaks :=
    match peaks with
    | ObjectArray [cell]%list => FloatArray cell
    | _ => peaks
    end in
  match peaks with
  | FloatArray rows =>
      match_phases rows library mag_tol angle_tol index_error_tol
        n_peaks_to_index n_best
  | ObjectArray _ =>
      match library with
      | [] => Ok ([], [])
      | _ :: _ => Raise ValueError
      end
  end.

(** ** crystal_from_template_matching *)

(** [100 * (1 - ratio)]. *)
Definition reliability (ratio : Qc) : Qc := Qc_of_Z 100 * (1 - ratio).

(** Lines 375-405.  In [second / best] the index [z_matches[1, 2]] is
    evaluated before the division; the metrics dictionary is built by
    successive insertions. *)
Definition crystal_from_template_matching (z_matches : list template_match)
    : result crystal_entry :=
  if (n_unique (tm_phase <$> z_matches) =? 1)%nat then
    best ← getitem z_matches 0;
    second ← getitem z_matches 1;
    ratio ← py_div (tm_correlation second) (tm_correlation best);
    Ok {| ce_phase := tm_phase best;
          ce_orientation := tm_orientation best;
          ce_metrics :=
            <["orientation_reliability" := MScalar (reliability ratio)]>
              (<["correlation" := MScalar (tm_correlation best)]> ∅) |}
  else
    index_best_match ← argmax (tm_correlation <$> z_matches);
    best ← getitem z_matches (Z.of_nat index_best_match);
    let z := filter (λ r, tm_phase r = tm_phase best) z_matches in
    part ← partition (tm_correlation <$> z) (-2);
    second_orientation ← getitem part (-2);
    let z := filter (λ r, tm_phase r ≠ tm_phase best) z_matches in
    second_phase ← np_max (tm_correlation <$> z);
    ratio_o ← py_div second_orientation (tm_correlation best);
    ratio_p ← py_div second_phase (tm_correlation best);
    Ok {| ce_phase := tm_phase best;
          ce_orientation := tm_orientation best;
          ce_metrics :=
            <["phase_reliability" := MScalar (reliability ratio_p)]>
              (<["orientation_reliability" := MScalar (reliability ratio_o)]>
                 (<["correlation" := MScalar (tm_correlation best)]> ∅)) |}.

(** ** crystal_from_vector_matching *)

(** The three metrics both branches copy from the best row. *)
Definition vector_metrics (best : vector_match) : gmap string metric :=
  <["total_error" := MScalar (vm_total_error best)]>
    (<["ehkls" := MArray (vm_ehkls best)]>
       (<["match_rate" := MScalar (vm_match_rate best)]> ∅)).

(** Lines 429-465. *)
Definition crystal_from_vector_matching (z_matches : list vector_match)
    : result crystal_entry :=
  if (n_unique (vm_phase <$> z_matches) =? 1)%nat then
    best ← getitem z_matches 0;
    second ← getitem z_matches 1;
    ratio ← py_div (vm_total_error best) (vm_total_error second);
    Ok {| ce_phase := vm_phase best;
          ce_orientation := mat2euler (vm_R best);
          ce_metrics :=
            <["orientation_reliability" := MScalar (reliability ratio)]>
              (vector_metrics best) |}
  else
    index_best_match ← argmin (vm_total_error <$> z_matches);
    best ← getitem z_matches (Z.of_nat index_best_match);
    let z := filter (λ r, vm_phase r = vm_phase best) z_matches in
    part ← partition (vm_total_error <$> z) 1;
    second_orientation ← getitem part 1;
    let z := filter (λ r, vm_phase r ≠ vm_phase best) z_matches in
    second_phase ← np_min (vm_total_error <$> z);
    ratio_o ← py_div (vm_total_error best) second_orientation;
    ratio_p ← py_div (vm_total_error best) second_phase;
    Ok {| ce_phase := vm_phase best;
          ce_orientation := mat2euler (vm_R best);
          ce_metrics :=
            <["phase_reliability" := MScalar (reliability ratio_p)]>
              (<["orientation_reliability" := MScalar (reliability ratio_o)]>
                 (vector_metrics best)) |}.

End Indexation.

(** ** Vocabulary of the statements *)

(** Position [i] precedes position [j] in the sorted index array: smaller
    key first, and for equal keys the smaller index first. *)
Definition key_index_lt (a : list Qc) (i j : nat) : Prop :=
  qnth a i < qnth a j ∨ (qnth a i = qnth a j ∧ (i < j)%nat).






(** Position [i] is the first one holding the best score, [worse x y]
    reading "[x] is strictly worse than [y]": no score is better than the
    one at [i], and every earlier score is strictly worse. *)
Definition first_best (worse : relation Qc) (scores : list Qc) (i : nat) : Prop :=
  (i < length scores)%nat
  ∧ (∀ j, (j < length scores)%nat → ¬ worse (qnth scores i) (qnth scores j))
  ∧ (∀ j, (j < i)%nat → worse (qnth scores j) (qnth scores i)).

(** The rows of every phase come best first: of two rows of one phase, the
    later one is not better ([no_better x y]: [y] is no better than [x]). *)
Definition best_first_within_phases {A} (phase : A → nat)
    (no_better : A → A → Prop) (z_matches : list A) : Prop :=
  ∀ i j x y, (i < j)%nat → z_matches !! i = Some x → z_matches !! j = Some y →
    phase x = phase y → no_better x y.

(** The entries the template reducer builds: from the best row [b] and the
    correlation [second] of the runner-up of its phase, and in the
    multi-phase branch also the best correlation [other] of the other
    phases. *)
Definition template_single_entry (b : template_match) (second : Qc)
    : crystal_entry :=
  {| ce_phase := tm_phase b;
     ce_orientation := tm_orientation b;
     ce_metrics :=
       <["orientation_reliability" :=
           MScalar (reliability (second / tm_correlation b))]>
         (<["correlation" := MScalar (tm_correlation b)]> ∅) |}.

Definition template_multi_entry (b : template_match) (second other : Qc)
    : crystal_entry :=
  {| ce_phase := tm_phase b;
     ce_orientation := tm_orientation b;
     ce_metrics :=
       <["phase_reliability" :=
           MScalar (reliability (other / tm_correlation b))]>
         (<["orientation_reliability" :=
              MScalar (reliability (second / tm_correlation b))]>
            (<["correlation" := MScalar (tm_correlation b)]> ∅)) |}.

(** The same for the vector reducer, on total errors. *)
Definition vector_single_entry `{G : Geometry} (b : vector_match) (second : Qc)
    : crystal_entry :=
  {| ce_phase := vm_phase b;
     ce_orientation := mat2euler (vm_R b);
     ce_metrics :=
       <["orientation_reliability" :=
           MScalar (reliability (vm_total_error b / second))]>
         (vector_metrics b) |}.

Definition vector_multi_entry `{G : Geometry} (b : vector_match)
    (second other : Qc) : crystal_entry :=
  {| ce_phase := vm_phase b;
     ce_orientation := mat2euler (vm_R b);
     ce_metrics :=
       <["phase_reliability" :=
           MScalar (reliability (vm_total_error b / other))]>
         (<["orientation_reliability" :=
              MScalar (reliability (vm_total_error b / second))]>
            (vector_metrics b)) |}.

(** Row [y] has no higher correlation than row [x]; row [y] has no lower
    total error than row [x]. *)
Definition tm_no_better (x y : template_match) : Prop :=
  tm_correlation y ≤ tm_correlation x.
Definition vm_no_better (x y : vector_match) : Prop :=
  vm_total_error x ≤ vm_total_error y.

(** Row [r] of phase [phase_index] reports the cell at position [k] of the
    flattened grid [flat] of the entry [e]: its correlation is the content
    of the cell, and its orientation is the stored orientation of the
    cell's column, turned in the plane by the angle of the cell's row. *)
Definition row_of_cell (e : library_entry) (flat : list Qc)
    (phase_index k : nat) (r : template_match) : Prop :=
  tm_phase r = phase_index
  ∧ tm_correlation r = qnth flat k
  ∧ ∃ o, orientations e !! (k mod length (orientations e))%nat = Some o
      ∧ tm_orientation r
        = vec_add o (0, 0, Qc_of_nat (k / length (orientations e))
                           * (Qc_of_Z 360 / Qc_of_nat (length (pixel_coords e)))).

(** ** Sample inputs *)

(** A geometry to run the functions on: a cubic lattice of cell 1, where
    fractional and cartesian coordinates coincide, and peaks along the
    axes, whose Euclidean length is the sum of the absolute coordinates.
    The angle and the rotation are those of a pair of vectors that already
    lies on its reference pair. *)
Definition axis_norm (v : vec3) : Qc :=
  let '(x, y, z) := v in Qcabs x + Qcabs y + Qcabs z.

Definition sample_geometry : Geometry := {|
  lattice := unit;
  linalg_norm := axis_norm;
  get_angle_cartesian := λ _ _, 0;
  get_rotation_matrix_between_vectors := λ _ _ _ _, identity3;
  cartesian := λ _ h, (Qc_of_Z h.1.1, Qc_of_Z h.1.2, Qc_of_Z h.2);
  fractional := λ _ v, v;
  mat2euler := λ _, (0, 0, 0)
|}.

Definition sample_peaks : list vec3 :=
  [(1, 0, 0); (0, 1 + 1, 0); (0, 0, 1 + 1 + 1)].

(** A phase whose only catalog pair is far longer than any sample peak. *)
Definition far_phase : vector_phase :=
  {| indices := [((9, 0, 0), (0, 9, 0))%Z];
     measurements := [(Qc_of_Z 9, Qc_of_Z 9, 0)] |}.

(** A phase whose only catalog pair has the lengths of the two longest
    sample peaks: under the identity rotation the three sample peaks are
    indexed exactly. *)
Definition near_phase : vector_phase :=
  {| indices := [((0, 0, 3), (0, 2, 0))%Z];
     measurements := [(Qc_of_Z 3, Qc_of_Z 2, 0)] |}.

(** The two input solutions used against the stable-order reading: the same
    match rate, told apart by their vector pair index. *)
Definition tie_first : solution :=
  {| sol_R := identity3; sol_match_rate := 1; sol_ehkls := [];
     sol_error_mean := 0; sol_vector_pair_index := 0 |}.
Definition tie_second : solution :=
  {| sol_R := identity3; sol_match_rate := 1; sol_ehkls := [];
     sol_error_mean := 0; sol_vector_pair_index := 1 |}.

(** A one-pixel image and a library entry with a single template. *)
Definition tiny_image : list (list Qc) := (1 :: nil) :: nil.
Definition tiny_entry : library_entry :=
  {| orientations := (0, 0, 0) :: nil;
     pixel_coords := (((0, 0)%Z :: nil) :: nil) :: nil;
     intensities := ((1 :: nil) :: nil) :: nil;
     pattern_norms := (1 :: nil) :: nil |}.

Definition tm_row (p : nat) (c : Q) : template_match :=
  {| tm_phase := p; tm_orientation := (0, 0, 0); tm_correlation := Q2Qc c |}.

Definition vm_row (p : nat) (err : Q) : vector_match :=
  {| vm_phase := p; vm_R := identity3; vm_match_rate := 1;
     vm_ehkls := []; vm_total_error := Q2Qc err |}.

(** One in-plane rotation, two orientations, one reflection each, on an
    image of two pixels: the grid of correlations is [[1; 3]]. *)
Definition pair_image : list (list Qc) := (1 :: Qc_of_Z 3 :: nil) :: nil.
Definition pair_entry : library_entry :=
  {| orientations := (0, 0, 0) :: (1, 1, 1) :: nil;
     pixel_coords := (((0, 0)%Z :: nil) :: ((1, 0)%Z :: nil) :: nil) :: nil;
     intensities := ((1 :: nil) :: (1 :: nil) :: nil) :: nil;
     pattern_norms := (1 :: 1 :: nil) :: nil |}.

(** * Properties *)

(** ** The error monad and indexing *)

Lemma result_mapM_Forall2 {A B} (f : A → result B) (l : list A) (ys : list B) :
  result_mapM f l = Ok ys → Forall2 (λ x y, f x = Ok y) l ys.
Proof.
  revert ys. induction l as [|x l IH]; intros ys; simpl.
  - intros [= <-]. constructor.
  - destruct (f x) as [y|e] eqn:Hx; simpl; [|done].
    destruct (result_mapM f l) as [ys'|e] eqn:Hl; simpl; [|done].
    intros [= <-]. constructor; [done|]. by apply IH.
Qed.

Lemma getitem_nat {A} (a : list A) (i : nat) (x : A) :
  a !! i = Some x → getitem a (Z.of_nat i) = Ok x.
Proof.
  intros Hi. unfold getitem.
  destruct (Z.ltb_spec (Z.of_nat i) 0) as [?|_]; [lia|].
  destruct (Z.ltb_spec (Z.of_nat i) 0) as [?|_]; [lia|].
  by rewrite Nat2Z.id, Hi.
Qed.

Lemma getitem_nat_None {A} (a : list A) (i : nat) :
  a !! i = None → getitem a (Z.of_nat i) = Raise IndexError.
Proof.
  intros Hi. unfold getitem.
  destruct (Z.ltb_spec (Z.of_nat i) 0) as [?|_]; [lia|].
  destruct (Z.ltb_spec (Z.of_nat i) 0) as [?|_]; [lia|].
  by rewrite Nat2Z.id, Hi.
Qed.

(** [a[-k]] is the [k]-th cell from the end. *)
Lemma getitem_neg {A} (a : list A) (k : nat) (x : A) :
  (0 < k ≤ length a)%nat → a !! (length a - k)%nat = Some x →
  getitem a (- Z.of_nat k) = Ok x.
Proof.
  intros Hk Hx. unfold getitem.
  destruct (Z.ltb_spec (- Z.of_nat k) 0) as [_|?]; [|lia].
  destruct (Z.ltb_spec (- Z.of_nat k + Z.of_nat (length a)) 0) as [?|_]; [lia|].
  replace (Z.to_nat (- Z.of_nat k + Z.of_nat (length a)))
    with (length a - k)%nat by lia.
  by rewrite Hx.
Qed.

Lemma nth_lookup_Some {A} (l : list A) (i : nat) (d x : A) :
  l !! i = Some x → nth i l d = x.
Proof. intros H. by rewrite nth_lookup, H. Qed.

Lemma length_take_indices {A} (d : A) (a : list A) (idx : list nat) :
  length (take_indices d a idx) = length idx.
Proof. unfold take_indices. by rewrite length_fmap. Qed.

Lemma take_indices_seq {A} (d : A) (a : list A) :
  take_indices d a (seq 0 (length a)) = a.
Proof.
  unfold take_indices. apply list_eq. intros i.
  rewrite list_lookup_fmap.
  destruct (decide (i < length a)%nat) as [Hi|Hi].
  - rewrite lookup_seq_lt by done. simpl.
    destruct (lookup_lt_is_Some_2 a i Hi) as [x Hx].
    by rewrite Hx, (nth_lookup_Some _ _ _ _ Hx).
  - rewrite lookup_seq_ge by lia. simpl. symmetry. apply lookup_ge_None. lia.
Qed.

(** ** argsort: a stable ascending sort of the indices *)

#[global] Instance key_index_lt_trans a : Transitive (key_index_lt a).
Proof.
  intros i j k [Hij|[Hij ?]] [Hjk|[Hjk ?]]; unfold key_index_lt.
  - left. by etrans.
  - left. by rewrite <-Hjk.
  - left. by rewrite Hij.
  - right. split; [congruence|lia].
Qed.


Lemma key_index_lt_le a i j : key_index_lt a i j → qnth a i ≤ qnth a j.
Proof. intros [H|[-> _]]; [by apply Qclt_le_weak|done]. Qed.

Lemma insert_index_perm a i l : insert_index a i l ≡ₚ i :: l.
Proof.
  induction l as [|j l IH]; simpl; [done|].
  case_decide; [done|]. rewrite IH. apply Permutation_swap.
Qed.

Lemma insert_index_sorted a i l :
  StronglySorted (key_index_lt a) l → Forall (λ j, (j < i)%nat) l →
  StronglySorted (key_index_lt a) (insert_index a i l).
Proof.
  induction l as [|j l IH]; simpl; intros Hs Hlt.
  - repeat constructor.
  - apply StronglySorted_inv in Hs as [Hs Hj].
    apply Forall_cons in Hlt as [Hji Hlt].
    case_decide as Hc.
    + constructor; [by constructor|].
      constructor; [by left|].
      eapply Forall_impl; [exact Hj|]. intros k Hk.
      etrans; [|exact Hk]. by left.
    + constructor; [by apply IH|].
      rewrite insert_index_perm. constructor; [|done].
      apply Qcnot_lt_le in Hc.
      destruct (Qcle_lt_or_eq _ _ Hc) as [?|Heq]; [by left|].
      right. by split.
Qed.

Lemma argsort_upto_perm a n : argsort_upto a n ≡ₚ seq 0 n.
Proof.
  induction n as [|n IH]; [done|].
  rewrite seq_S. cbn [argsort_upto].
  rewrite insert_index_perm, IH. simpl.
  by rewrite Permutation_app_comm.
Qed.

Lemma argsort_upto_sorted a n : StronglySorted (key_index_lt a) (argsort_upto a n).
Proof.
  induction n as [|n IH]; simpl; [constructor|].
  apply insert_index_sorted; [done|].
  rewrite argsort_upto_perm. apply Forall_forall. intros j Hj.
  apply elem_of_seq in Hj. lia.
Qed.

Lemma argsort_perm a : argsort a ≡ₚ seq 0 (length a).
Proof. apply argsort_upto_perm. Qed.

Lemma argsort_sorted a : StronglySorted (key_index_lt a) (argsort a).
Proof. apply argsort_upto_sorted. Qed.

Lemma length_argsort a : length (argsort a) = length a.
Proof. by rewrite argsort_perm, length_seq. Qed.

Lemma argsort_NoDup a : NoDup (argsort a).
Proof. rewrite argsort_perm. apply NoDup_seq. Qed.

Lemma argsort_elem_of a i : i ∈ argsort a ↔ (i < length a)%nat.
Proof. rewrite argsort_perm, elem_of_seq. lia. Qed.

#[global] Instance key_index_gt_trans a : Transitive (flip (key_index_lt a)).
Proof. intros i j k Hij Hjk. unfold flip in *. by etrans. Qed.



Lemma omap_lookup_Forall2 {A} (a : list A) (idx : list nat) :
  Forall (λ i, (i < length a)%nat) idx →
  Forall2 (λ i x, a !! i = Some x) idx (omap (λ i, a !! i) idx).
Proof.
  induction 1 as [|i idx Hi _ IH]; simpl; [constructor|].
  destruct (lookup_lt_is_Some_2 a i Hi) as [x Hx]. rewrite Hx.
  by constructor.
Qed.

(** ** C5: the solution ranker *)



(** ** C6: the peak selector *)

Section PeakSelector.
Context `{G : Geometry}.

Lemma kth_in_bounds_neg (n m : nat) :
  (0 < m ≤ n)%nat → kth_in_bounds n (- Z.of_nat m) = true.
Proof.
  intros Hm. unfold kth_in_bounds.
  destruct (Z.ltb_spec (- Z.of_nat m) 0); [|lia].
  apply orb_true_iff. right. apply andb_true_iff. split.
  - apply Z.leb_le. lia.
  - apply Z.ltb_lt. lia.
Qed.

Lemma kth_in_bounds_nat (n m : nat) :
  (m < n)%nat → kth_in_bounds n (Z.of_nat m) = true.
Proof.
  intros Hm. unfold kth_in_bounds.
  destruct (Z.ltb_spec (Z.of_nat m) 0); [lia|].
  apply orb_true_iff. right. apply andb_true_iff. split.
  - apply Z.leb_le. lia.
  - apply Z.ltb_lt. lia.
Qed.

Lemma assign_slot_same {A} (n : nat) (src : list A) :
  length src = n → assign_slot n src = Ok src.
Proof. intros <-. unfold assign_slot. by rewrite Nat.eqb_refl. Qed.

(** What the function computes on a non-empty array and a positive count:
    the tail of the sorted index array, then its head. *)
Lemma choose_peak_ids_eq (peaks : list vec3) (k : nat) :
  (1 ≤ length peaks)%nat → (1 ≤ k)%nat →
  let n := (length peaks `min` k)%nat in
  _choose_peak_ids peaks k =
    Ok (drop (length peaks - (n + 1) / 2) (argsort (linalg_norm <$> peaks))
        ++ take (n - (n + 1) / 2) (argsort (linalg_norm <$> peaks))).
Proof.
  intros HN Hk n. unfold _choose_peak_ids. fold n.
  set (lens := linalg_norm <$> peaks).
  assert (Hlen : length lens = length peaks) by apply length_fmap.
  assert (Hn : (1 ≤ n ≤ length peaks)%nat) by (unfold n; lia).
  assert (Hlong : (1 ≤ (n + 1) / 2 ≤ n)%nat).
  { split; [apply Nat.div_le_lower_bound; lia|].
    apply Nat.Div0.div_le_upper_bound. lia. }
  generalize dependent ((n + 1) / 2)%nat. intros m Hm.
  clearbody n.
  unfold argpartition. rewrite Hlen.
  rewrite kth_in_bounds_neg by lia.
  rewrite kth_in_bounds_nat by lia.
  cbn [mbind result_bind].
  unfold last_n. destruct (Nat.eqb_spec m 0) as [?|_]; [lia|].
  rewrite length_argsort, Hlen.
  rewrite (assign_slot_same (m `min` n))
    by (rewrite length_drop, length_argsort, Hlen; lia).
  cbn [mbind result_bind].
  rewrite (assign_slot_same (n - m))
    by (rewrite length_take, length_argsort, Hlen; lia).
  done.
Qed.


End PeakSelector.

(** ** argmax and argmin *)

Lemma qnth_lookup (l : list Qc) (i : nat) (x : Qc) :
  l !! i = Some x → qnth l i = x.
Proof. apply nth_lookup_Some. Qed.

Lemma qnth_fmap {A} (f : A → Qc) (l : list A) (i : nat) (x : A) :
  l !! i = Some x → qnth (f <$> l) i = f x.
Proof. intros H. apply qnth_lookup. by rewrite list_lookup_fmap, H. Qed.

Lemma qnth_app_l (l k : list Qc) (i : nat) :
  (i < length l)%nat → qnth (l ++ k) i = qnth l i.
Proof. intros H. unfold qnth. by rewrite app_nth1. Qed.

Section ArgBest.
Context (worse : relation Qc) `{!RelDecision worse} `{!StrictOrder worse}.
Hypothesis worse_mix : ∀ a b x, ¬ worse b a → worse b x → worse a x.

Local Abbreviation better := (λ x b : Qc, bool_decide (worse b x)).

Lemma arg_best_from_spec (l p : list Qc) (bi i : nat) :
  length p = i → (bi < i)%nat →
  (∀ j, (j < i)%nat → ¬ worse (qnth p bi) (qnth p j)) →
  (∀ j, (j < bi)%nat → worse (qnth p j) (qnth p bi)) →
  first_best worse (p ++ l) (arg_best_from better bi (qnth p bi) i l).
Proof.
  revert p bi i. induction l as [|x l IH]; intros p bi i Hp Hbi Hmax Hfirst.
  - simpl. rewrite app_nil_r. split_and!; [lia| |done].
    intros j Hj. apply Hmax. lia.
  - simpl. replace (p ++ x :: l) with ((p ++ [x]) ++ l)
      by (by rewrite <-app_assoc).
    assert (Hx : qnth (p ++ [x]) i = x).
    { apply qnth_lookup. rewrite lookup_app_r by lia.
      by replace (i - length p)%nat with 0%nat by lia. }
    assert (Hpre : ∀ j, (j < i)%nat → qnth (p ++ [x]) j = qnth p j).
    { intros j Hj. apply qnth_app_l. lia. }
    case_bool_decide as Hc.
    + specialize (IH (p ++ [x]) i (S i)). rewrite Hx in IH. apply IH.
      * rewrite length_app. simpl. lia.
      * lia.
      * intros j Hj.
        destruct (decide (j = i)) as [->|Hne].
        { rewrite Hx. apply irreflexivity, _. }
        rewrite Hpre by lia. intros Hw.
        apply (Hmax j); [lia|]. by etrans.
      * intros j Hj. rewrite Hpre by lia.
        eapply worse_mix; [|exact Hc]. apply Hmax. lia.
    + specialize (IH (p ++ [x]) bi (S i)). rewrite (Hpre bi) in IH by lia.
      apply IH.
      * rewrite length_app. simpl. lia.
      * lia.
      * intros j Hj.
        destruct (decide (j = i)) as [->|Hne]; [by rewrite Hx|].
        rewrite Hpre by lia. apply Hmax. lia.
      * intros j Hj. rewrite !Hpre by lia. by apply Hfirst.
Qed.

Lemma arg_best_first_best (l : list Qc) (i : nat) :
  arg_best better l = Ok i → first_best worse l i.
Proof.
  destruct l as [|x l]; simpl; [done|]. intros [= <-].
  change (x :: l) with ([x] ++ l).
  change x with (qnth [x] 0) at 2.
  apply arg_best_from_spec; [done|lia| |intros; lia].
  intros j Hj. replace j with 0%nat by lia. apply irreflexivity, _.
Qed.

Lemma arg_best_nonempty (l : list Qc) :
  l ≠ [] → ∃ i, arg_best better l = Ok i.
Proof. destruct l; [done|]. intros _. by eexists. Qed.

Lemma first_best_unique (l : list Qc) (i j : nat) :
  first_best worse l i → first_best worse l j → i = j.
Proof.
  intros (Hi & Hmi & Hfi) (Hj & Hmj & Hfj).
  destruct (Nat.lt_trichotomy i j) as [Hlt|[->|Hlt]]; [|done|].
  - exfalso. by apply (Hmi j Hj), Hfj.
  - exfalso. by apply (Hmj i Hi), Hfi.
Qed.

Lemma first_best_arg_best (l : list Qc) (i : nat) :
  first_best worse l i → arg_best better l = Ok i.
Proof.
  intros Hi. destruct (arg_best_nonempty l) as [j Hj].
  { intros ->. destruct Hi as (Hi & _). simpl in Hi. lia. }
  rewrite Hj. f_equal. apply arg_best_first_best in Hj.
  by apply (first_best_unique l).
Qed.


End ArgBest.

#[local] Instance Qc_gt_dec : RelDecision (flip Qclt) := λ x y, Qc_lt_dec y x.

#[local] Instance Qc_gt_strict : StrictOrder (flip Qclt).
Proof.
  split; [intros x; apply (irreflexivity Qclt)|].
  intros x y z Hxy Hyz. unfold flip in *. by etrans.
Qed.

Lemma Qclt_mix (a b x : Qc) : ¬ b < a → b < x → a < x.
Proof. intros H1 H2. apply Qcnot_lt_le in H1. by eapply Qcle_lt_trans. Qed.

Lemma Qcgt_mix (a b x : Qc) : ¬ flip Qclt b a → flip Qclt b x → flip Qclt a x.
Proof.
  unfold flip. intros H1 H2. apply Qcnot_lt_le in H1.
  by eapply Qclt_le_trans.
Qed.

Lemma argmax_first_best (l : list Qc) (i : nat) :
  argmax l = Ok i ↔ first_best Qclt l i.
Proof.
  split.
  - apply (arg_best_first_best Qclt Qclt_mix).
  - apply (first_best_arg_best Qclt Qclt_mix).
Qed.

Lemma argmin_first_best (l : list Qc) (i : nat) :
  argmin l = Ok i ↔ first_best (flip Qclt) l i.
Proof.
  split.
  - apply (arg_best_first_best (flip Qclt) Qcgt_mix).
  - apply (first_best_arg_best (flip Qclt) Qcgt_mix).
Qed.

Lemma argmax_empty : argmax [] = Raise ValueError.
Proof. done. Qed.

Lemma argmin_empty : argmin [] = Raise ValueError.
Proof. done. Qed.

(** ** partition *)

Lemma sorted_values_perm (a : list Qc) : take_indices 0 a (argsort a) ≡ₚ a.
Proof.
  unfold take_indices. rewrite argsort_perm.
  apply (reflexive_eq _ _ (take_indices_seq 0 a)).
Qed.

Lemma sorted_values_sorted (a : list Qc) :
  StronglySorted Qcle (take_indices 0 a (argsort a)).
Proof.
  unfold take_indices.
  apply (StronglySorted_fmap _ (key_index_lt a)); [|apply argsort_sorted].
  intros i j. apply key_index_lt_le.
Qed.

Lemma sorted_values_ascending (a : list Qc) :
  StronglySorted Qcle a → take_indices 0 a (argsort a) = a.
Proof.
  intros Ha. apply (StronglySorted_unique Qcle); [apply sorted_values_sorted|done|].
  apply sorted_values_perm.
Qed.

Lemma sorted_values_descending (a : list Qc) :
  StronglySorted (flip Qcle) a → take_indices 0 a (argsort a) = reverse a.
Proof.
  intros Ha. apply (StronglySorted_unique Qcle); [apply sorted_values_sorted| |].
  - apply Sorted_StronglySorted; [apply _|].
    apply StronglySorted_Sorted, Sorted_reverse in Ha. exact Ha.
  - by rewrite sorted_values_perm, reverse_Permutation.
Qed.

Lemma bind_Ok_inv {A B} (m : result A) (f : A → result B) (y : B) :
  m ≫= f = Ok y → ∃ x, m = Ok x ∧ f x = Ok y.
Proof. destruct m as [x|e]; [|done]. intros H. by exists x. Qed.

Lemma py_div_ok (x y : Qc) : y ≠ 0 → py_div x y = Ok (x / y).
Proof. intros H. unfold py_div. by case_decide. Qed.

Lemma py_div_inv (x y q : Qc) : py_div x y = Ok q → y ≠ 0 ∧ q = x / y.
Proof. unfold py_div. case_decide; [done|]. by intros [= <-]. Qed.

Lemma getitem_inv_nat {A} (a : list A) (i : nat) (x : A) :
  getitem a (Z.of_nat i) = Ok x → a !! i = Some x.
Proof.
  destruct (a !! i) as [y|] eqn:Hi.
  - rewrite (getitem_nat _ _ _ Hi). by intros [= ->].
  - by rewrite (getitem_nat_None _ _ Hi).
Qed.

(** ** Phases of a candidate list *)

Lemma n_unique_one (l : list nat) :
  n_unique l = 1%nat ↔ ∃ p, l ≠ [] ∧ Forall (λ x, x = p) l.
Proof.
  unfold n_unique. split.
  - intros H. destruct (remove_dups l) as [|p [|]] eqn:Hd; simplify_eq/=.
    exists p. split.
    + by intros ->.
    + apply Forall_forall. intros x Hx.
      rewrite <-elem_of_remove_dups, Hd in Hx.
      by apply list_elem_of_singleton in Hx.
  - intros (p & Hne & Hall).
    assert (Hsub : ∀ x, x ∈ remove_dups l → x = p).
    { intros x Hx. rewrite elem_of_remove_dups in Hx.
      rewrite Forall_forall in Hall. by apply Hall. }
    pose proof (NoDup_remove_dups l) as Hnd.
    destruct (remove_dups l) as [|x [|y k]] eqn:Hd.
    + destruct l as [|z l]; [done|].
      assert (z ∈ remove_dups (z :: l)) as Hz
        by (apply elem_of_remove_dups; left).
      rewrite Hd in Hz. by apply elem_of_nil in Hz.
    + done.
    + exfalso. apply NoDup_cons in Hnd as [Hx _]. apply Hx.
      rewrite (Hsub x) by left. rewrite (Hsub y) by (right; left). left.
Qed.

Lemma n_unique_two {A} (phase : A → nat) (l : list A) (x y : A) :
  x ∈ l → y ∈ l → phase x ≠ phase y → n_unique (phase <$> l) ≠ 1%nat.
Proof.
  intros Hx Hy Hne Hone. apply n_unique_one in Hone as (p & _ & Hall).
  rewrite Forall_fmap, Forall_forall in Hall.
  apply Hne. simpl in Hall. by rewrite (Hall x Hx), (Hall y Hy).
Qed.

Lemma filter_phase_all {A} (phase : A → nat) (l : list A) (p : nat) :
  Forall (λ x, phase x = p) l → filter (λ x, phase x = p) l = l.
Proof.
  induction 1 as [|x l Hx _ IH]; [done|].
  rewrite filter_cons_True by done. by rewrite IH.
Qed.



Lemma best_first_filter_sorted {A} (phase : A → nat) (no_better : A → A → Prop)
    (l : list A) (p : nat) :
  best_first_within_phases phase no_better l →
  StronglySorted no_better (filter (λ x, phase x = p) l).
Proof.
  induction l as [|x l IH]; intros Hbf; [constructor|].
  assert (Htl : best_first_within_phases phase no_better l).
  { intros i j a b Hij Ha Hb. apply (Hbf (S i) (S j)); [lia|done|done]. }
  destruct (decide (phase x = p)) as [Hp|Hp].
  - rewrite filter_cons_True by done. constructor; [by apply IH|].
    apply Forall_forall. intros y Hy.
    apply list_elem_of_filter in Hy as [Hyp Hy].
    apply list_elem_of_lookup_1 in Hy as [j Hj].
    apply (Hbf 0%nat (S j)); [lia|done|done|congruence].
  - rewrite filter_cons_False by done. by apply IH.
Qed.

(** ** np.max, np.min and the runner-up of a sorted phase *)

Lemma first_best_lookup (worse : relation Qc) (l : list Qc) (i : nat) :
  first_best worse l i → l !! i = Some (qnth l i).
Proof.
  intros (Hi & _). destruct (lookup_lt_is_Some_2 l i Hi) as [x Hx].
  by rewrite (qnth_lookup _ _ _ Hx).
Qed.

Lemma np_max_spec (l : list Qc) (m : Qc) :
  np_max l = Ok m ↔ m ∈ l ∧ ∀ x, x ∈ l → x ≤ m.
Proof.
  unfold np_max. split.
  - intros H. apply bind_Ok_inv in H as (i & Hi & [= <-]).
    apply argmax_first_best in Hi.
    pose proof (first_best_lookup _ _ _ Hi) as Hl.
    destruct Hi as (Hi & Hmax & _). split.
    + by eapply list_elem_of_lookup_2.
    + intros x Hx. apply list_elem_of_lookup_1 in Hx as [j Hj].
      rewrite <-(qnth_lookup _ _ _ Hj). apply Qcnot_lt_le, Hmax.
      by eapply lookup_lt_Some.
  - intros [Hm Hmax]. destruct (arg_best_nonempty Qclt l) as [i Hi].
    { intros ->. by apply elem_of_nil in Hm. }
    change (argmax l = Ok i) in Hi. rewrite Hi. simpl. f_equal.
    apply argmax_first_best in Hi.
    pose proof (first_best_lookup _ _ _ Hi) as Hl.
    destruct Hi as (Hi & Hmax' & _).
    apply Qcle_antisym.
    + apply Hmax. by eapply list_elem_of_lookup_2.
    + apply list_elem_of_lookup_1 in Hm as [j Hj].
      rewrite <-(qnth_lookup _ _ _ Hj). apply Qcnot_lt_le, Hmax'.
      by eapply lookup_lt_Some.
Qed.

Lemma np_min_spec (l : list Qc) (m : Qc) :
  np_min l = Ok m ↔ m ∈ l ∧ ∀ x, x ∈ l → m ≤ x.
Proof.
  unfold np_min. split.
  - intros H. apply bind_Ok_inv in H as (i & Hi & [= <-]).
    apply argmin_first_best in Hi.
    pose proof (first_best_lookup _ _ _ Hi) as Hl.
    destruct Hi as (Hi & Hmin & _). split.
    + by eapply list_elem_of_lookup_2.
    + intros x Hx. apply list_elem_of_lookup_1 in Hx as [j Hj].
      rewrite <-(qnth_lookup _ _ _ Hj). apply Qcnot_lt_le.
      apply (Hmin j). by eapply lookup_lt_Some.
  - intros [Hm Hmin].
    destruct (arg_best_nonempty (flip Qclt) l) as [i Hi].
    { intros ->. by apply elem_of_nil in Hm. }
    change (argmin l = Ok i) in Hi. rewrite Hi. simpl. f_equal.
    apply argmin_first_best in Hi.
    pose proof (first_best_lookup _ _ _ Hi) as Hl.
    destruct Hi as (Hi & Hmin' & _).
    apply Qcle_antisym.
    + apply list_elem_of_lookup_1 in Hm as [j Hj].
      rewrite <-(qnth_lookup _ _ _ Hj). apply Qcnot_lt_le.
      apply (Hmin' j). by eapply lookup_lt_Some.
    + apply Hmin. by eapply list_elem_of_lookup_2.
Qed.

Lemma np_max_nonempty (l : list Qc) : l ≠ [] → ∃ m, np_max l = Ok m.
Proof.
  intros Hl. destruct (arg_best_nonempty Qclt l Hl) as [i Hi].
  change (argmax l = Ok i) in Hi. unfold np_max. rewrite Hi. by eexists.
Qed.


(** The second largest of a descending array is its second cell. *)
Lemma second_largest_descending (a : list Qc) (s : Qc) :
  StronglySorted (flip Qcle) a → a !! 1%nat = Some s →
  (part ← partition a (-2); getitem part (-2)) = Ok s.
Proof.
  intros Ha Hs. pose proof (lookup_lt_Some _ _ _ Hs) as Hlen.
  unfold partition. rewrite (kth_in_bounds_neg _ 2) by lia.
  rewrite sorted_values_descending by done. simpl.
  apply (getitem_neg _ 2); rewrite length_reverse; [lia|].
  rewrite reverse_lookup by lia.
  by replace (length a - S (length a - 2))%nat with 1%nat by lia.
Qed.

(** The second smallest of an ascending array is its second cell. *)
Lemma second_smallest_ascending (a : list Qc) (s : Qc) :
  StronglySorted Qcle a → a !! 1%nat = Some s →
  (part ← partition a 1; getitem part 1) = Ok s.
Proof.
  intros Ha Hs. pose proof (lookup_lt_Some _ _ _ Hs) as Hlen.
  unfold partition. rewrite (kth_in_bounds_nat _ 1) by lia.
  rewrite sorted_values_ascending by done. simpl.
  by apply (getitem_nat _ 1).
Qed.

(** With a single row in the phase there is no second value. *)
Lemma partition_short_neg (a : list Qc) :
  length a = 1%nat → partition a (-2) = Raise ValueError.
Proof.
  intros Ha. unfold partition. by rewrite Ha.
Qed.

Lemma partition_short (a : list Qc) :
  length a = 1%nat → partition a 1 = Raise ValueError.
Proof.
  intros Ha. unfold partition. by rewrite Ha.
Qed.

(** ** The template reducer, branch by branch *)

Lemma getitem_0 {A} (a : list A) (x : A) : a !! 0%nat = Some x → getitem a 0 = Ok x.
Proof. apply (getitem_nat a 0). Qed.

Lemma getitem_1 {A} (a : list A) (x : A) : a !! 1%nat = Some x → getitem a 1 = Ok x.
Proof. apply (getitem_nat a 1). Qed.

Lemma getitem_0_inv {A} (a : list A) (x : A) : getitem a 0 = Ok x → a !! 0%nat = Some x.
Proof. apply (getitem_inv_nat a 0). Qed.

Lemma getitem_1_inv {A} (a : list A) (x : A) : getitem a 1 = Ok x → a !! 1%nat = Some x.
Proof. apply (getitem_inv_nat a 1). Qed.

Lemma template_single_ok (zs : list template_match) (b s : template_match) :
  n_unique (tm_phase <$> zs) = 1%nat →
  zs !! 0%nat = Some b → zs !! 1%nat = Some s → tm_correlation b ≠ 0 →
  crystal_from_template_matching zs
  = Ok (template_single_entry b (tm_correlation s)).
Proof.
  intros H1 Hb Hs Hnz. unfold crystal_from_template_matching.
  rewrite H1, Nat.eqb_refl, (getitem_0 _ _ Hb), (getitem_1 _ _ Hs).
  cbn [mbind result_bind]. by rewrite py_div_ok.
Qed.

Lemma template_single_inv (zs : list template_match) (e : crystal_entry) :
  n_unique (tm_phase <$> zs) = 1%nat →
  crystal_from_template_matching zs = Ok e →
  ∃ b s, zs !! 0%nat = Some b ∧ zs !! 1%nat = Some s ∧ tm_correlation b ≠ 0
         ∧ e = template_single_entry b (tm_correlation s).
Proof.
  intros H1. unfold crystal_from_template_matching.
  rewrite H1, Nat.eqb_refl. intros H.
  apply bind_Ok_inv in H as (b & Hb & H).
  apply bind_Ok_inv in H as (s & Hs & H).
  apply bind_Ok_inv in H as (q & Hq & [= <-]).
  apply py_div_inv in Hq as [Hnz ->].
  exists b, s. split_and!; [by apply getitem_0_inv|by apply getitem_1_inv|done..].
Qed.

Lemma template_multi_ok (zs : list template_match) (i : nat)
    (b : template_match) (so sp : Qc) :
  n_unique (tm_phase <$> zs) ≠ 1%nat →
  first_best Qclt (tm_correlation <$> zs) i → zs !! i = Some b →
  (part ← partition
            (tm_correlation <$> filter (λ r, tm_phase r = tm_phase b) zs) (-2);
   getitem part (-2)) = Ok so →
  np_max (tm_correlation <$> filter (λ r, tm_phase r ≠ tm_phase b) zs) = Ok sp →
  tm_correlation b ≠ 0 →
  crystal_from_template_matching zs = Ok (template_multi_entry b so sp).
Proof.
  intros H1 Hi Hb Hso Hsp Hnz. unfold crystal_from_template_matching.
  destruct (Nat.eqb_spec (n_unique (tm_phase <$> zs)) 1) as [?|_]; [done|].
  apply argmax_first_best in Hi. rewrite Hi. cbn [mbind result_bind].
  rewrite (getitem_nat _ _ _ Hb). cbn [mbind result_bind].
  apply bind_Ok_inv in Hso as (part & Hpart & Hso).
  rewrite Hpart. cbn [mbind result_bind]. rewrite Hso. cbn [mbind result_bind].
  rewrite Hsp. cbn [mbind result_bind].
  by rewrite !py_div_ok.
Qed.

Lemma template_multi_inv (zs : list template_match) (e : crystal_entry) :
  n_unique (tm_phase <$> zs) ≠ 1%nat →
  crystal_from_template_matching zs = Ok e →
  ∃ i b so sp,
    first_best Qclt (tm_correlation <$> zs) i ∧ zs !! i = Some b
    ∧ (part ← partition
                (tm_correlation <$> filter (λ r, tm_phase r = tm_phase b) zs) (-2);
       getitem part (-2)) = Ok so
    ∧ np_max (tm_correlation <$> filter (λ r, tm_phase r ≠ tm_phase b) zs) = Ok sp
    ∧ tm_correlation b ≠ 0
    ∧ e = template_multi_entry b so sp.
Proof.
  intros H1. unfold crystal_from_template_matching.
  destruct (Nat.eqb_spec (n_unique (tm_phase <$> zs)) 1) as [?|_]; [done|].
  intros H.
  apply bind_Ok_inv in H as (i & Hi & H).
  apply bind_Ok_inv in H as (b & Hb & H).
  apply bind_Ok_inv in H as (part & Hpart & H).
  apply bind_Ok_inv in H as (so & Hso & H).
  apply bind_Ok_inv in H as (sp & Hsp & H).
  apply bind_Ok_inv in H as (qo & Hqo & H).
  apply bind_Ok_inv in H as (qp & Hqp & [= <-]).
  apply py_div_inv in Hqo as [Hnz ->]. apply py_div_inv in Hqp as [_ ->].
  exists i, b, so, sp. split_and!; try done.
  - by apply argmax_first_best.
  - by apply getitem_inv_nat.
  - rewrite Hpart. by cbn [mbind result_bind].
Qed.

(** The winner's phase holds a single row: both branches raise. *)
Lemma template_short_phase (zs : list template_match) (i : nat)
    (b : template_match) :
  first_best Qclt (tm_correlation <$> zs) i → zs !! i = Some b →
  (length (filter (λ r, tm_phase r = tm_phase b) zs) < 2)%nat →
  crystal_from_template_matching zs = Raise IndexError
  ∨ crystal_from_template_matching zs = Raise ValueError.
Proof.
  intros Hi Hb Hshort. unfold crystal_from_template_matching.
  destruct (Nat.eqb_spec (n_unique (tm_phase <$> zs)) 1) as [H1|H1].
  - left. apply n_unique_one in H1 as (p & _ & Hall).
    rewrite Forall_fmap in Hall.
    assert (Hp : tm_phase b = p).
    { rewrite Forall_forall in Hall. apply Hall.
      by eapply list_elem_of_lookup_2. }
    rewrite Hp, (filter_phase_all tm_phase) in Hshort by done.
    destruct zs as [|x [|y zs]]; simpl in *; [done| |lia].
    done.
  - right. apply argmax_first_best in Hi. rewrite Hi. cbn [mbind result_bind].
    rewrite (getitem_nat _ _ _ Hb). cbn [mbind result_bind].
    rewrite partition_short_neg; [done|].
    rewrite length_fmap.
    assert (b ∈ filter (λ r, tm_phase r = tm_phase b) zs) as Hin.
    { apply list_elem_of_filter. split; [done|].
      by eapply list_elem_of_lookup_2. }
    destruct (filter (λ r, tm_phase r = tm_phase b) zs) as [|? [|]];
      simpl in *; [by apply elem_of_nil in Hin|done|lia].
Qed.

(** ** The vector reducer, branch by branch *)

Section VectorReducer.
Context `{G : Geometry}.

Lemma vector_single_ok (zs : list vector_match) (b s : vector_match) :
  n_unique (vm_phase <$> zs) = 1%nat →
  zs !! 0%nat = Some b → zs !! 1%nat = Some s → vm_total_error s ≠ 0 →
  crystal_from_vector_matching zs
  = Ok (vector_single_entry b (vm_total_error s)).
Proof.
  intros H1 Hb Hs Hnz. unfold crystal_from_vector_matching.
  rewrite H1, Nat.eqb_refl, (getitem_0 _ _ Hb), (getitem_1 _ _ Hs).
  cbn [mbind result_bind]. by rewrite py_div_ok.
Qed.

Lemma vector_single_inv (zs : list vector_match) (e : crystal_entry) :
  n_unique (vm_phase <$> zs) = 1%nat →
  crystal_from_vector_matching zs = Ok e →
  ∃ b s, zs !! 0%nat = Some b ∧ zs !! 1%nat = Some s ∧ vm_total_error s ≠ 0
         ∧ e = vector_single_entry b (vm_total_error s).
Proof.
  intros H1. unfold crystal_from_vector_matching.
  rewrite H1, Nat.eqb_refl. intros H.
  apply bind_Ok_inv in H as (b & Hb & H).
  apply bind_Ok_inv in H as (s & Hs & H).
  apply bind_Ok_inv in H as (q & Hq & [= <-]).
  apply py_div_inv in Hq as [Hnz ->].
  exists b, s. split_and!; [by apply getitem_0_inv|by apply getitem_1_inv|done..].
Qed.

Lemma vector_multi_ok (zs : list vector_match) (i : nat)
    (b : vector_match) (so sp : Qc) :
  n_unique (vm_phase <$> zs) ≠ 1%nat →
  first_best (flip Qclt) (vm_total_error <$> zs) i → zs !! i = Some b →
  (part ← partition
            (vm_total_error <$> filter (λ r, vm_phase r = vm_phase b) zs) 1;
   getitem part 1) = Ok so →
  np_min (vm_total_error <$> filter (λ r, vm_phase r ≠ vm_phase b) zs) = Ok sp →
  so ≠ 0 → sp ≠ 0 →
  crystal_from_vector_matching zs = Ok (vector_multi_entry b so sp).
Proof.
  intros H1 Hi Hb Hso Hsp Hnzo Hnzp. unfold crystal_from_vector_matching.
  destruct (Nat.eqb_spec (n_unique (vm_phase <$> zs)) 1) as [?|_]; [done|].
  apply argmin_first_best in Hi. rewrite Hi. cbn [mbind result_bind].
  rewrite (getitem_nat _ _ _ Hb). cbn [mbind result_bind].
  apply bind_Ok_inv in Hso as (part & Hpart & Hso).
  rewrite Hpart. cbn [mbind result_bind]. rewrite Hso. cbn [mbind result_bind].
  rewrite Hsp. cbn [mbind result_bind].
  by rewrite !py_div_ok.
Qed.

Lemma vector_multi_inv (zs : list vector_match) (e : crystal_entry) :
  n_unique (vm_phase <$> zs) ≠ 1%nat →
  crystal_from_vector_matching zs = Ok e →
  ∃ i b so sp,
    first_best (flip Qclt) (vm_total_error <$> zs) i ∧ zs !! i = Some b
    ∧ (part ← partition
                (vm_total_error <$> filter (λ r, vm_phase r = vm_phase b) zs) 1;
       getitem part 1) = Ok so
    ∧ np_min (vm_total_error <$> filter (λ r, vm_phase r ≠ vm_phase b) zs) = Ok sp
    ∧ so ≠ 0 ∧ sp ≠ 0
    ∧ e = vector_multi_entry b so sp.
Proof.
  intros H1. unfold crystal_from_vector_matching.
  destruct (Nat.eqb_spec (n_unique (vm_phase <$> zs)) 1) as [?|_]; [done|].
  intros H.
  apply bind_Ok_inv in H as (i & Hi & H).
  apply bind_Ok_inv in H as (b & Hb & H).
  apply bind_Ok_inv in H as (part & Hpart & H).
  apply bind_Ok_inv in H as (so & Hso & H).
  apply bind_Ok_inv in H as (sp & Hsp & H).
  apply bind_Ok_inv in H as (qo & Hqo & H).
  apply bind_Ok_inv in H as (qp & Hqp & [= <-]).
  apply py_div_inv in Hqo as [Hnzo ->]. apply py_div_inv in Hqp as [Hnzp ->].
  exists i, b, so, sp. split_and!; try done.
  - by apply argmin_first_best.
  - by apply getitem_inv_nat.
  - rewrite Hpart. by cbn [mbind result_bind].
Qed.

Lemma vector_short_phase (zs : list vector_match) (i : nat) (b : vector_match) :
  first_best (flip Qclt) (vm_total_error <$> zs) i → zs !! i = Some b →
  (length (filter (λ r, vm_phase r = vm_phase b) zs) < 2)%nat →
  crystal_from_vector_matching zs = Raise IndexError
  ∨ crystal_from_vector_matching zs = Raise ValueError.
Proof.
  intros Hi Hb Hshort. unfold crystal_from_vector_matching.
  destruct (Nat.eqb_spec (n_unique (vm_phase <$> zs)) 1) as [H1|H1].
  - left. apply n_unique_one in H1 as (p & _ & Hall).
    rewrite Forall_fmap in Hall.
    assert (Hp : vm_phase b = p).
    { rewrite Forall_forall in Hall. apply Hall.
      by eapply list_elem_of_lookup_2. }
    rewrite Hp, (filter_phase_all vm_phase) in Hshort by done.
    destruct zs as [|x [|y zs]]; simpl in *; [done| |lia].
    done.
  - right. apply argmin_first_best in Hi. rewrite Hi. cbn [mbind result_bind].
    rewrite (getitem_nat _ _ _ Hb). cbn [mbind result_bind].
    rewrite partition_short; [done|].
    rewrite length_fmap.
    assert (b ∈ filter (λ r, vm_phase r = vm_phase b) zs) as Hin.
    { apply list_elem_of_filter. split; [done|].
      by eapply list_elem_of_lookup_2. }
    destruct (filter (λ r, vm_phase r = vm_phase b) zs) as [|? [|]];
      simpl in *; [by apply elem_of_nil in Hin|done|lia].
Qed.

End VectorReducer.

(** ** C9: a winning phase without runner-up *)

(** C9.  When the phase of the best row (the first row of highest
    correlation, respectively of lowest total error) holds fewer than two
    rows, each reducer raises: [IndexError] from reading the second row in
    the single-phase branch, [ValueError] from [np.partition] in the
    multi-phase branch.  No entry is returned. *)
Theorem reducers_raise_without_runner_up `{G : Geometry} :
  (∀ (zs : list template_match) i b,
     first_best Qclt (tm_correlation <$> zs) i → zs !! i = Some b →
     (length (filter (λ r, tm_phase r = tm_phase b) zs) < 2)%nat →
     ∃ e, crystal_from_template_matching zs = Raise e
          ∧ (e = IndexError ∨ e = ValueError))
  ∧ (∀ (zs : list vector_match) i b,
     first_best (flip Qclt) (vm_total_error <$> zs) i → zs !! i = Some b →
     (length (filter (λ r, vm_phase r = vm_phase b) zs) < 2)%nat →
     ∃ e, crystal_from_vector_matching zs = Raise e
          ∧ (e = IndexError ∨ e = ValueError)).
Proof.
  split; intros zs i b Hi Hb Hshort.
  - destruct (template_short_phase zs i b Hi Hb Hshort) as [H|H];
      rewrite H; eauto.
  - destruct (vector_short_phase zs i b Hi Hb Hshort) as [H|H];
      rewrite H; eauto.
Qed.

(** ** C3: a single phase *)

Lemma n_unique_same {A} (phase : A → nat) (l : list A) (p : nat) (x : A) :
  l !! 0%nat = Some x → Forall (λ r, phase r = p) l →
  n_unique (phase <$> l) = 1%nat.
Proof.
  intros Hx Hall. apply n_unique_one. exists p. split.
  - destruct l; [done|]. done.
  - by rewrite Forall_fmap.
Qed.

(** C3.  When all the rows carry one phase index and there are at least
    two of them, each reducer returns the first row [b] as best (its phase,
    its orientation) and [orientation_reliability = 100 * (1 - ratio)],
    the ratio being (second correlation / best correlation) for templates
    and (best total error / second total error) for vectors; the metrics
    hold no [phase_reliability].  For the correlations [0.9; 0.5] the
    reliability is 400/9, between 44.4 and 44.5. *)
Theorem reducers_single_phase `{G : Geometry} :
  (∀ (zs : list template_match) p b s,
     Forall (λ r, tm_phase r = p) zs →
     zs !! 0%nat = Some b → zs !! 1%nat = Some s → tm_correlation b ≠ 0 →
     ∃ e, crystal_from_template_matching zs = Ok e
       ∧ ce_phase e = tm_phase b ∧ ce_orientation e = tm_orientation b
       ∧ ce_metrics e !! "correlation" = Some (MScalar (tm_correlation b))
       ∧ ce_metrics e !! "orientation_reliability"
         = Some (MScalar (Qc_of_Z 100 * (1 - tm_correlation s / tm_correlation b)))
       ∧ ce_metrics e !! "phase_reliability" = None)
  ∧ (∀ (zs : list vector_match) p b s,
     Forall (λ r, vm_phase r = p) zs →
     zs !! 0%nat = Some b → zs !! 1%nat = Some s → vm_total_error s ≠ 0 →
     ∃ e, crystal_from_vector_matching zs = Ok e
       ∧ ce_phase e = vm_phase b ∧ ce_orientation e = mat2euler (vm_R b)
       ∧ ce_metrics e !! "match_rate" = Some (MScalar (vm_match_rate b))
       ∧ ce_metrics e !! "ehkls" = Some (MArray (vm_ehkls b))
       ∧ ce_metrics e !! "total_error" = Some (MScalar (vm_total_error b))
       ∧ ce_metrics e !! "orientation_reliability"
         = Some (MScalar (Qc_of_Z 100 * (1 - vm_total_error b / vm_total_error s)))
       ∧ ce_metrics e !! "phase_reliability" = None)
  ∧ (∀ p o0 o1,
     ∃ e, crystal_from_template_matching
            [ {| tm_phase := p; tm_orientation := o0; tm_correlation := Q2Qc 0.9 |};
              {| tm_phase := p; tm_orientation := o1; tm_correlation := Q2Qc 0.5 |} ]
          = Ok e
       ∧ ce_metrics e !! "orientation_reliability"
         = Some (MScalar (Q2Qc (400 # 9)))
       ∧ Q2Qc 44.4 < Q2Qc (400 # 9) < Q2Qc 44.5
       ∧ ce_metrics e !! "phase_reliability" = None).
Proof.
  split_and!.
  - intros zs p b s Hall Hb Hs Hnz. eexists. split.
    + apply template_single_ok; [by eapply n_unique_same|done..].
    + by split_and!.
  - intros zs p b s Hall Hb Hs Hnz. eexists. split.
    + apply vector_single_ok; [by eapply n_unique_same|done..].
    + by split_and!.
  - intros p o0 o1. eexists. split.
    + apply template_single_ok;
        [eapply (n_unique_same _ _ p); [done|by repeat constructor]|done..].
    + by split_and!.
Qed.

(** ** C1: several phases *)

Lemma tm_sorted_scores (zs : list template_match) (p : nat) :
  best_first_within_phases tm_phase tm_no_better zs →
  StronglySorted (flip Qcle)
    (tm_correlation <$> filter (λ r, tm_phase r = p) zs).
Proof.
  intros Hbf. eapply StronglySorted_fmap;
    [|by apply (best_first_filter_sorted tm_phase tm_no_better)].
  by intros x y.
Qed.

Lemma vm_sorted_scores (zs : list vector_match) (p : nat) :
  best_first_within_phases vm_phase vm_no_better zs →
  StronglySorted Qcle
    (vm_total_error <$> filter (λ r, vm_phase r = p) zs).
Proof.
  intros Hbf. eapply StronglySorted_fmap;
    [|by apply (best_first_filter_sorted vm_phase vm_no_better)].
  by intros x y.
Qed.

Lemma template_multi_phase (zs : list template_match) (i : nat)
    (b s c : template_match) :
  best_first_within_phases tm_phase tm_no_better zs →
  first_best Qclt (tm_correlation <$> zs) i → zs !! i = Some b →
  filter (λ r, tm_phase r = tm_phase b) zs !! 1%nat = Some s →
  c ∈ zs → tm_phase c ≠ tm_phase b →
  (∀ r, r ∈ zs → tm_phase r ≠ tm_phase b → tm_correlation r ≤ tm_correlation c) →
  tm_correlation b ≠ 0 →
  crystal_from_template_matching zs
  = Ok (template_multi_entry b (tm_correlation s) (tm_correlation c)).
Proof.
  intros Hbf Hi Hb Hs Hc Hcp Hcmax Hnz.
  apply (template_multi_ok zs i); try done.
  - apply (n_unique_two tm_phase zs c b); [done| |done].
    by eapply list_elem_of_lookup_2.
  - apply second_largest_descending; [by apply tm_sorted_scores|].
    by rewrite list_lookup_fmap, Hs.
  - apply np_max_spec. split.
    + apply list_elem_of_fmap. exists c. split; [done|].
      by apply list_elem_of_filter.
    + intros x Hx. apply list_elem_of_fmap in Hx as (r & -> & Hr).
      apply list_elem_of_filter in Hr as [Hrp Hr]. by apply Hcmax.
Qed.

Lemma vector_multi_phase `{G : Geometry} (zs : list vector_match) (i : nat)
    (b s c : vector_match) :
  best_first_within_phases vm_phase vm_no_better zs →
  first_best (flip Qclt) (vm_total_error <$> zs) i → zs !! i = Some b →
  filter (λ r, vm_phase r = vm_phase b) zs !! 1%nat = Some s →
  c ∈ zs → vm_phase c ≠ vm_phase b →
  (∀ r, r ∈ zs → vm_phase r ≠ vm_phase b → vm_total_error c ≤ vm_total_error r) →
  vm_total_error s ≠ 0 → vm_total_error c ≠ 0 →
  crystal_from_vector_matching zs
  = Ok (vector_multi_entry b (vm_total_error s) (vm_total_error c)).
Proof.
  intros Hbf Hi Hb Hs Hc Hcp Hcmin Hnzs Hnzc.
  apply (vector_multi_ok zs i); try done.
  - apply (n_unique_two vm_phase zs c b); [done| |done].
    by eapply list_elem_of_lookup_2.
  - apply second_smallest_ascending; [by apply vm_sorted_scores|].
    by rewrite list_lookup_fmap, Hs.
  - apply np_min_spec. split.
    + apply list_elem_of_fmap. exists c. split; [done|].
      by apply list_elem_of_filter.
    + intros x Hx. apply list_elem_of_fmap in Hx as (r & -> & Hr).
      apply list_elem_of_filter in Hr as [Hrp Hr]. by apply Hcmin.
Qed.

(** C1.  On rows of at least two phases, each phase's rows best first:
    with [b] the first row of highest correlation (lowest total error),
    [s] the second row of [b]'s phase and [c] a best row among the other
    phases, each reducer returns [b]'s phase and orientation,
    [orientation_reliability = 100 * (1 - ratio)] against [s] and
    [phase_reliability = 100 * (1 - ratio)] against [c], the ratio being
    (other / best) for correlations and (best / other) for total errors.
    In particular total errors 0.01 (best), 0.02 (same phase) and 0.05
    (other phase) give 50 and 80. *)
Theorem reducers_multi_phase `{G : Geometry} :
  (∀ (zs : list template_match) i b s c,
     best_first_within_phases tm_phase tm_no_better zs →
     first_best Qclt (tm_correlation <$> zs) i → zs !! i = Some b →
     filter (λ r, tm_phase r = tm_phase b) zs !! 1%nat = Some s →
     c ∈ zs → tm_phase c ≠ tm_phase b →
     (∀ r, r ∈ zs → tm_phase r ≠ tm_phase b →
        tm_correlation r ≤ tm_correlation c) →
     tm_correlation b ≠ 0 →
     ∃ e, crystal_from_template_matching zs = Ok e
       ∧ ce_phase e = tm_phase b ∧ ce_orientation e = tm_orientation b
       ∧ ce_metrics e !! "correlation" = Some (MScalar (tm_correlation b))
       ∧ ce_metrics e !! "orientation_reliability"
         = Some (MScalar (Qc_of_Z 100 * (1 - tm_correlation s / tm_correlation b)))
       ∧ ce_metrics e !! "phase_reliability"
         = Some (MScalar (Qc_of_Z 100 * (1 - tm_correlation c / tm_correlation b))))
  ∧ (∀ (zs : list vector_match) i b s c,
     best_first_within_phases vm_phase vm_no_better zs →
     first_best (flip Qclt) (vm_total_error <$> zs) i → zs !! i = Some b →
     filter (λ r, vm_phase r = vm_phase b) zs !! 1%nat = Some s →
     c ∈ zs → vm_phase c ≠ vm_phase b →
     (∀ r, r ∈ zs → vm_phase r ≠ vm_phase b →
        vm_total_error c ≤ vm_total_error r) →
     vm_total_error s ≠ 0 → vm_total_error c ≠ 0 →
     ∃ e, crystal_from_vector_matching zs = Ok e
       ∧ ce_phase e = vm_phase b ∧ ce_orientation e = mat2euler (vm_R b)
       ∧ ce_metrics e !! "total_error" = Some (MScalar (vm_total_error b))
       ∧ ce_metrics e !! "orientation_reliability"
         = Some (MScalar (Qc_of_Z 100 * (1 - vm_total_error b / vm_total_error s)))
       ∧ ce_metrics e !! "phase_reliability"
         = Some (MScalar (Qc_of_Z 100 * (1 - vm_total_error b / vm_total_error c))))
  ∧ (∀ b s c : vector_match,
     vm_phase s = vm_phase b → vm_phase c ≠ vm_phase b →
     vm_total_error b = Q2Qc 0.01 → vm_total_error s = Q2Qc 0.02 →
     vm_total_error c = Q2Qc 0.05 →
     ∃ e, crystal_from_vector_matching [b; s; c] = Ok e
       ∧ ce_phase e = vm_phase b
       ∧ ce_metrics e !! "orientation_reliability" = Some (MScalar (Qc_of_Z 50))
       ∧ ce_metrics e !! "phase_reliability" = Some (MScalar (Qc_of_Z 80))).
Proof.
  split_and!.
  - intros zs i b s c Hbf Hi Hb Hs Hc Hcp Hcmax Hnz. eexists. split.
    + by apply (template_multi_phase zs i b s c).
    + by split_and!.
  - intros zs i b s c Hbf Hi Hb Hs Hc Hcp Hcmin Hnzs Hnzc. eexists. split.
    + by apply (vector_multi_phase zs i b s c).
    + by split_and!.
  - intros b s c Hsp Hcp Hb Hs Hc. eexists. split.
    + apply (vector_multi_phase [b; s; c] 0 b s c).
      * intros i j x y Hij Hx Hy Hxy.
        destruct i as [|[|[|i]]], j as [|[|[|j]]]; simplify_eq/=; try lia;
          unfold vm_no_better; try congruence.
        by rewrite Hb, Hs.
      * split_and!; [simpl; lia| |intros; lia].
        intros j Hj. simpl in *. unfold flip.
        destruct j as [|[|[|j]]]; simpl; [..|lia];
          rewrite ?Hb, ?Hs, ?Hc; done.
      * done.
      * rewrite filter_cons_True by done. rewrite filter_cons_True by done.
        done.
      * set_solver.
      * done.
      * intros r Hr Hrp.
        apply elem_of_cons in Hr as [->|Hr]; [done|].
        apply elem_of_cons in Hr as [->|Hr]; [done|].
        by apply list_elem_of_singleton in Hr as ->.
      * by rewrite Hs.
      * by rewrite Hc.
    + unfold vector_multi_entry, reliability. simpl. split_and!; [done| |].
      * rewrite lookup_insert_ne, lookup_insert_eq by done.
        rewrite Hb, Hs. do 2 f_equal. by apply Qc_is_canon.
      * rewrite lookup_insert_eq.
        rewrite Hb, Hc. do 2 f_equal. by apply Qc_is_canon.
Qed.

(** ** C8: appending a phase that does not win *)


Lemma first_best_sorted_single {A} (phase : A → nat) (score : A → Qc)
    (worse : relation Qc) `{!StrictOrder worse} (l : list A) (p : nat) (x : A) :
  best_first_within_phases phase (λ a b, ¬ worse (score a) (score b)) l →
  Forall (λ r, phase r = p) l → l !! 0%nat = Some x →
  (∀ a b, ¬ worse a b → a ≠ b → worse b a) →
  first_best worse (score <$> l) 0.
Proof.
  intros Hbf Hall Hx Htot. split_and!.
  - rewrite length_fmap. by eapply lookup_lt_Some.
  - intros j Hj. rewrite length_fmap in Hj.
    destruct (lookup_lt_is_Some_2 l j Hj) as [y Hy].
    rewrite (qnth_fmap _ _ _ _ Hx), (qnth_fmap _ _ _ _ Hy).
    destruct j as [|j].
    + simplify_eq. apply irreflexivity, _.
    + apply (Hbf 0%nat (S j)); [lia|done|done|].
      rewrite Forall_forall in Hall.
      rewrite (Hall x), (Hall y); [done|by eapply list_elem_of_lookup_2..].
  - intros j Hj. lia.
Qed.

Section AppendPhase.
Context `{G : Geometry}.



End AppendPhase.


(** ** C4: which candidate rotations become solutions *)

Lemma count_mask {A} (P : A → Prop) `{!∀ x, Decision (P x)} (l : list A) :
  length (filter (λ b, b = true) ((λ x, bool_decide (P x)) <$> l))
  = length (filter P l).
Proof.
  induction l as [|x l IH]; [done|]. rewrite fmap_cons.
  destruct (decide (P x)) as [Hx|Hx].
  - rewrite (filter_cons_True P) by done.
    rewrite filter_cons_True by (by apply bool_decide_eq_true). simpl.
    by rewrite IH.
  - rewrite (filter_cons_False P) by done.
    rewrite filter_cons_False; [done|].
    intros Hb. by apply bool_decide_eq_true in Hb.
Qed.

Lemma select_mask_filter {A} (P : A → Prop) `{!∀ x, Decision (P x)} (l : list A) :
  select_mask ((λ x, bool_decide (P x)) <$> l) l = filter P l.
Proof.
  unfold select_mask. induction l as [|x l IH]; [done|].
  rewrite fmap_cons. cbn [zip zip_with].
  destruct (decide (P x)) as [Hx|Hx].
  - rewrite (filter_cons_True P) by done.
    rewrite filter_cons_True by (by apply bool_decide_eq_true).
    rewrite fmap_cons. simpl. by f_equal.
  - rewrite (filter_cons_False P) by done.
    rewrite filter_cons_False; [done|].
    simpl. intros Hb. by apply bool_decide_eq_true in Hb.
Qed.

Section Candidates.
Context `{G : Geometry}.

Lemma length_hkl_errors (hkls : list vec3) : length (hkl_errors hkls) = length hkls.
Proof.
  unfold hkl_errors, rounded_hkls.
  rewrite length_zip_with, length_fmap. lia.
Qed.

Lemma pair_candidates_evaluated peaks phase lat mag_tol angle_tol tol vpi pr x :
  x ∈ pair_candidates peaks phase lat mag_tol angle_tol tol vpi pr →
  ∃ R, evaluate_rotation peaks lat tol vpi R = Some x.
Proof.
  unfold pair_candidates.
  destruct (decide _) as [?|?]; simpl;
    (destruct (_ =? _)%nat; [by intros ?%elem_of_nil|]);
    intros Hx; apply list_elem_of_omap in Hx as (ref & _ & Hx); eauto.
Qed.

Lemma phase_candidates_evaluated peaks phase lat mag_tol angle_tol tol n cands x :
  phase_candidates peaks phase lat mag_tol angle_tol tol n = Ok cands →
  x ∈ cands → ∃ vpi R, evaluate_rotation peaks lat tol vpi R = Some x.
Proof.
  unfold phase_candidates. intros H.
  apply bind_Ok_inv in H as (ids & _ & [= <-]). intros Hx.
  apply list_elem_of_bind in Hx as (c & Hx & _).
  apply pair_candidates_evaluated in Hx as [R HR]. eauto.
Qed.

(** C4.  For a candidate rotation [R], let [ehkls] be the indexation
    errors of all the peaks and [valid] the rows whose largest error is
    below [index_error_tol].  The candidate is appended exactly when
    [valid] has more than two rows; the appended solution carries [R],
    [match_rate = |valid| / |peaks|] and the mean of the entries of
    [valid] as [error_mean]; and every solution collected for a phase is
    appended in this way. *)
Theorem candidate_retained_iff (peaks : list vec3) (lattice_recip : lattice)
    (index_error_tol : Qc) :
  (∀ vector_pair_index R,
     let ehkls := hkl_errors (rotated_hkls peaks lattice_recip R) in
     let valid := filter (λ e, vec_max e < index_error_tol) ehkls in
     (is_Some (evaluate_rotation peaks lattice_recip index_error_tol
                 vector_pair_index R)
      ↔ (2 < length valid)%nat)
     ∧ ∀ s rhkls,
         evaluate_rotation peaks lattice_recip index_error_tol
           vector_pair_index R = Some (s, rhkls) →
         sol_R s = R ∧ sol_ehkls s = ehkls
         ∧ sol_match_rate s
           = Qc_of_nat (length valid) / Qc_of_nat (length peaks)
         ∧ sol_error_mean s
           = Qcsum (valid ≫= vec_entries) / Qc_of_nat (3 * length valid))
  ∧ (∀ phase mag_tol angle_tol n_peaks_to_index cands x,
       phase_candidates peaks phase lattice_recip mag_tol angle_tol
         index_error_tol n_peaks_to_index = Ok cands →
       x ∈ cands →
       ∃ vector_pair_index R,
         evaluate_rotation peaks lattice_recip index_error_tol
           vector_pair_index R = Some x).
Proof.
  split; [|intros; by eapply phase_candidates_evaluated].
  intros vpi R ehkls valid. unfold evaluate_rotation.
  fold ehkls. rewrite count_mask. fold valid.
  rewrite select_mask_filter. fold valid.
  destruct (Nat.ltb_spec 2 (length valid)) as [Hc|Hc].
  - split; [split; [done|by eexists]|].
    intros s rh [= <- <-]. simpl. split_and!; try done.
    destruct (Nat.eqb_spec (length peaks) 0) as [H0|_]; [|done].
    exfalso. pose proof (length_filter (λ e, vec_max e < index_error_tol) ehkls) as Hle.
    fold valid in Hle. unfold ehkls in Hle.
    rewrite length_hkl_errors in Hle. unfold rotated_hkls in Hle.
    rewrite length_fmap in Hle. lia.
  - split; [|done]. split; [by intros [? ?]|lia].
Qed.

End Candidates.

(** ** Blocks of equal length *)

Lemma length_concat_uniform {A} (blocks : list (list A)) (n : nat) :
  Forall (λ b, length b = n) blocks →
  length (concat blocks) = (length blocks * n)%nat.
Proof.
  induction 1 as [|b blocks Hb _ IH]; [done|].
  simpl. rewrite length_app, IH, Hb. lia.
Qed.

Lemma lookup_concat_uniform {A} (blocks : list (list A)) (n i j : nat) (b : list A) :
  Forall (λ b, length b = n) blocks → blocks !! i = Some b → (j < n)%nat →
  concat blocks !! (i * n + j)%nat = b !! j.
Proof.
  intros Hall. revert i. induction Hall as [|b0 blocks Hb0 _ IH]; intros i Hi Hj.
  - done.
  - destruct i as [|i]; simpl in *.
    + simplify_eq. rewrite lookup_app_l by lia. done.
    + rewrite lookup_app_r by lia.
      replace (n + i * n + j - length b0)%nat with (i * n + j)%nat by lia.
      by apply IH.
Qed.

Lemma result_mapM_is_Ok {A B} (f : A → result B) (l : list A) :
  (∀ x, x ∈ l → ∃ y, f x = Ok y) → ∃ ys, result_mapM f l = Ok ys.
Proof.
  induction l as [|x l IH]; intros Hf; simpl; [by eexists|].
  destruct (Hf x) as [y Hy]; [left|]. rewrite Hy. simpl.
  destruct IH as [ys Hys]; [intros z Hz; apply Hf; by right|].
  rewrite Hys. simpl. by eexists.
Qed.

(** ** C2 and C10: the rows of match_vectors *)

Lemma length_sort_solutions (solutions : list solution) (n : nat) :
  length (_sort_solutions solutions n) = (n `min` length solutions)%nat.
Proof.
  unfold _sort_solutions.
  set (idx := take _ _).
  assert (Hidx : Forall (λ i, (i < length solutions)%nat) idx).
  { apply Forall_forall. intros i Hi. unfold idx in Hi.
    apply elem_of_take in Hi as (p & Hp & _).
    apply list_elem_of_lookup_2 in Hp. rewrite elem_of_reverse in Hp.
    apply argsort_elem_of in Hp. by rewrite length_fmap in Hp. }
  rewrite <-(Forall2_length _ _ _ (omap_lookup_Forall2 solutions idx Hidx)).
  unfold idx. rewrite length_take, length_reverse, length_argsort, length_fmap.
  lia.
Qed.

Lemma sort_solutions_min (solutions : list solution) (n : nat) :
  _sort_solutions solutions (n `min` length solutions) = _sort_solutions solutions n.
Proof.
  unfold _sort_solutions. do 2 f_equal. lia.
Qed.

Section MatchVectors.
Context `{G : Geometry}.

Lemma length_phase_rows (phase_index n_best : nat) (solutions : list solution) :
  length (phase_rows phase_index n_best solutions) = n_best.
Proof.
  unfold phase_rows. rewrite length_app.
  destruct (Nat.ltb_spec 0 (n_best `min` length solutions)) as [H0|H0];
    destruct (Nat.ltb_spec (n_best `min` length solutions) n_best) as [H1|H1];
    rewrite ?length_fmap, ?length_sort_solutions, ?length_replicate; simpl; lia.
Qed.

Lemma lookup_phase_rows (phase_index n_best : nat) (solutions : list solution)
    (j : nat) :
  (j < n_best)%nat →
  phase_rows phase_index n_best solutions !! j
  = Some (from_option (solution_row phase_index) dummy_row
            (_sort_solutions solutions n_best !! j)).
Proof.
  intros Hj. unfold phase_rows. rewrite sort_solutions_min.
  set (n := (n_best `min` length solutions)%nat).
  pose proof (length_sort_solutions solutions n_best) as Hlen. fold n in Hlen.
  destruct (decide (j < n)%nat) as [Hjn|Hjn].
  - destruct (Nat.ltb_spec 0 n) as [_|?]; [|lia].
    rewrite lookup_app_l by (rewrite length_fmap; lia).
    rewrite list_lookup_fmap.
    destruct (lookup_lt_is_Some_2 (_sort_solutions solutions n_best) j) as [s Hs];
      [lia|]. by rewrite Hs.
  - rewrite (lookup_ge_None_2 (_sort_solutions solutions n_best)) by lia. simpl.
    destruct (Nat.ltb_spec n n_best) as [_|?]; [|lia].
    destruct (Nat.ltb_spec 0 n) as [_|?].
    + rewrite lookup_app_r by (rewrite length_fmap; lia).
      apply lookup_replicate_2. rewrite length_fmap. lia.
    + simpl. apply lookup_replicate_2. lia.
Qed.

Lemma choose_peak_ids_ok (peaks : list vec3) (k : nat) :
  (1 ≤ k)%nat → ∃ ids, _choose_peak_ids peaks k = Ok ids.
Proof.
  intros Hk. destruct peaks as [|p peaks]; [by eexists|].
  eexists. apply choose_peak_ids_eq; simpl; lia.
Qed.

Lemma phase_candidates_ok peaks phase lat mag_tol angle_tol tol n :
  (1 ≤ n)%nat →
  ∃ cands, phase_candidates peaks phase lat mag_tol angle_tol tol n = Ok cands.
Proof.
  intros Hn. unfold phase_candidates.
  destruct (choose_peak_ids_ok peaks n Hn) as [ids ->]. by eexists.
Qed.

Lemma match_phases_rows (peaks : list vec3)
    (library : list (vector_phase * lattice))
    (mag_tol angle_tol tol : Qc) (n_peaks_to_index n_best : nat) :
  (1 ≤ n_peaks_to_index)%nat →
  ∃ rows rhkls,
    match_phases peaks library mag_tol angle_tol tol n_peaks_to_index n_best
    = Ok (rows, rhkls)
    ∧ length rows = (length library * n_best)%nat
    ∧ ∀ i phase lat, library !! i = Some (phase, lat) →
        ∃ cands,
          phase_candidates peaks phase lat mag_tol angle_tol tol
            n_peaks_to_index = Ok cands
          ∧ ∀ j, (j < n_best)%nat →
              rows !! (i * n_best + j)%nat
              = Some (from_option (solution_row i) dummy_row
                        (_sort_solutions (fst <$> cands) n_best !! j)).
Proof.
  intros Hn. unfold match_phases.
  set (f := λ c : nat * (vector_phase * lattice),
    cands ← phase_candidates peaks c.2.1 c.2.2 mag_tol angle_tol tol
               n_peaks_to_index;
    Ok (phase_rows c.1 n_best (fst <$> cands), snd <$> cands)).
  destruct (result_mapM_is_Ok f (imap (λ i e, (i, e)) library)) as [per Hper].
  { intros c _. unfold f.
    destruct (phase_candidates_ok peaks c.2.1 c.2.2 mag_tol angle_tol tol
                n_peaks_to_index Hn) as [cands ->]. by eexists. }
  rewrite Hper. cbn [mbind result_bind]. do 2 eexists. split; [done|].
  apply result_mapM_Forall2 in Hper.
  assert (Hblocks : Forall (λ b, length b = n_best) (fst <$> per)).
  { rewrite Forall_fmap. apply Forall_forall. intros y Hy.
    apply list_elem_of_lookup_1 in Hy as [i Hi].
    destruct (Forall2_lookup_r _ _ _ _ _ Hper Hi) as (c & _ & Hc).
    unfold f in Hc. apply bind_Ok_inv in Hc as (cands & _ & [= <-]).
    simpl. apply length_phase_rows. }
  split.
  - rewrite (length_concat_uniform _ n_best) by done.
    rewrite length_fmap, <-(Forall2_length _ _ _ Hper), length_imap. done.
  - intros i phase lat Hi.
    assert (Hc : imap (λ i e, (i, e)) library !! i = Some (i, (phase, lat))).
    { by rewrite list_lookup_imap, Hi. }
    destruct (Forall2_lookup_l _ _ _ _ _ Hper Hc) as (y & Hy & Hfy).
    unfold f in Hfy. simpl in Hfy.
    apply bind_Ok_inv in Hfy as (cands & Hcands & [= <-]).
    exists cands. split; [done|]. intros j Hj.
    rewrite (lookup_concat_uniform _ n_best i j
               (phase_rows i n_best (fst <$> cands))); [|done| |done].
    + by apply lookup_phase_rows.
    + by rewrite list_lookup_fmap, Hy.
Qed.

End MatchVectors.

(** C2, amended.  For [n_peaks_to_index ≥ 1], [match_vectors] returns
    exactly [p * n_best] rows for a library of [p] phases.  For the phase
    at position [i] with [n_solutions = min n_best count] real solutions,
    slot [j < n_solutions] holds the [j]-th ranked solution under the
    phase index [i], and exactly the slots [j ≥ n_solutions] hold the dummy
    row, which is the constant row (0, identity, 0, empty array, 1.0): its
    first field is 0 for every phase. *)
Theorem match_vectors_rows `{G : Geometry} (peaks : list vec3)
    (library : list (vector_phase * lattice))
    (mag_tol angle_tol index_error_tol : Qc) (n_peaks_to_index n_best : nat) :
  (1 ≤ n_peaks_to_index)%nat →
  ∃ rows rhkls,
    match_vectors (FloatArray peaks) library mag_tol angle_tol index_error_tol
      n_peaks_to_index n_best = Ok (rows, rhkls)
    ∧ length rows = (length library * n_best)%nat
    ∧ ∀ i phase lattice_recip, library !! i = Some (phase, lattice_recip) →
        ∃ cands,
          phase_candidates peaks phase lattice_recip mag_tol angle_tol
            index_error_tol n_peaks_to_index = Ok cands
          ∧ let solutions := fst <$> cands in
            let n_solutions := (n_best `min` length solutions)%nat in
            ∀ j, (j < n_best)%nat →
              ((j < n_solutions)%nat →
                 ∃ s, _sort_solutions solutions n_best !! j = Some s
                      ∧ rows !! (i * n_best + j)%nat = Some (solution_row i s))
              ∧ ((n_solutions ≤ j)%nat →
                 rows !! (i * n_best + j)%nat
                 = Some {| vm_phase := 0; vm_R := identity3; vm_match_rate := 0;
                           vm_ehkls := []; vm_total_error := 1 |}).
Proof.
  intros Hn.
  destruct (match_phases_rows peaks library mag_tol angle_tol index_error_tol
              n_peaks_to_index n_best Hn) as (rows & rhkls & Hres & Hlen & Hrows).
  exists rows, rhkls. split_and!; [done|done|].
  intros i phase lat Hi. destruct (Hrows i phase lat Hi) as (cands & Hc & Hj).
  exists cands. split; [done|]. intros solutions n_solutions j Hjn.
  specialize (Hj j Hjn). fold solutions in Hj.
  pose proof (length_sort_solutions solutions n_best) as Hlen'.
  fold n_solutions in Hlen'. split.
  - intros Hlt.
    destruct (lookup_lt_is_Some_2 (_sort_solutions solutions n_best) j) as [s Hs];
      [lia|].
    exists s. split; [done|]. by rewrite Hj, Hs.
  - intros Hge.
    by rewrite Hj, (lookup_ge_None_2 (_sort_solutions solutions n_best)) by lia.
Qed.

(** C10.  A [peaks] argument that is an object array with a single cell is
    replaced by the content of that cell: the result is the one obtained
    by passing the cell's array directly. *)
Theorem match_vectors_unwraps_peaks `{G : Geometry} (cell : list vec3)
    (library : list (vector_phase * lattice))
    (mag_tol angle_tol index_error_tol : Qc) (n_peaks_to_index n_best : nat) :
  match_vectors (ObjectArray [cell]) library mag_tol angle_tol index_error_tol
    n_peaks_to_index n_best
  = match_vectors (FloatArray cell) library mag_tol angle_tol index_error_tol
      n_peaks_to_index n_best.
Proof. reflexivity. Qed.

(** C2, as stated, fails: in a library of two phases without solutions,
    with one retained slot each, the slot of the phase of index 1 holds a
    dummy row whose phase field is 0. *)
Lemma match_vectors_dummy_phase_index :
  ∃ rows rhkls r,
    match_vectors (G := sample_geometry) (FloatArray sample_peaks)
      [(far_phase, tt); (far_phase, tt)]
      (Q2Qc 0.1) (Q2Qc 0.1) (Q2Qc 0.1) 3 1 = Ok (rows, rhkls)
    ∧ rows !! 1%nat = Some r ∧ vm_phase r = 0%nat ∧ vm_phase r ≠ 1%nat.
Proof.
  exists [dummy_row; dummy_row], [], dummy_row.
  split_and!; [by vm_compute|done|done|done].
Qed.

(** ** C7: the rows of correlate_library *)

Lemma StronglySorted_fmap_inv {A B} (f : A → B) (R : relation B) (l : list A) :
  StronglySorted R (f <$> l) → StronglySorted (λ x y, R (f x) (f y)) l.
Proof.
  induction l as [|x l IH]; [constructor|].
  rewrite fmap_cons. intros [Hs Hx]%StronglySorted_inv.
  constructor; [by apply IH|]. by rewrite Forall_fmap in Hx.
Qed.

Lemma take_indices_compose (flat : list Qc) (top idx : list nat) :
  Forall (λ k, (k < length top)%nat) idx →
  take_indices 0 flat (take_indices O top idx)
  = take_indices 0 (take_indices 0 flat top) idx.
Proof.
  intros Hidx. unfold take_indices. rewrite <-list_fmap_compose.
  apply Forall_fmap_ext_1. eapply Forall_impl; [exact Hidx|].
  intros k Hk. simpl. apply nth_nth_nth_map. by left.
Qed.

Lemma take_indices_elem_of {A} (d : A) (a : list A) (idx : list nat) (x : A) :
  Forall (λ k, (k < length a)%nat) idx → x ∈ take_indices d a idx → x ∈ a.
Proof.
  intros Hidx Hx. unfold take_indices in Hx.
  apply list_elem_of_fmap in Hx as (k & -> & Hk).
  rewrite Forall_forall in Hidx.
  destruct (lookup_lt_is_Some_2 a k (Hidx k Hk)) as [y Hy].
  rewrite (nth_lookup_Some _ _ _ _ Hy). by eapply list_elem_of_lookup_2.
Qed.

Lemma fmap_zip_with_scores (phase_index : nat) (os : list euler) (ss : list Qc) :
  length os = length ss →
  tm_correlation <$> zip_with (λ o s, {| tm_phase := phase_index;
                                         tm_orientation := o;
                                         tm_correlation := s |}) os ss = ss.
Proof.
  revert ss. induction os as [|o os IH]; intros [|s ss] Hlen; simplify_eq/=;
    [done|]. by rewrite IH.
Qed.

Lemma Qc_of_nat_ne_0 (n : nat) : n ≠ 0%nat → Qc_of_nat n ≠ 0.
Proof.
  intros Hn H0. unfold Qc_of_nat in H0. rewrite <-Z2Qc_inj_0 in H0.
  apply Z2Qc_inj in H0. lia.
Qed.

Lemma correlations_grid_length (image : list (list Qc)) (e : library_entry)
    (grid : list (list Qc)) :
  correlations_grid image e = Ok grid → (length grid ≤ length (pixel_coords e))%nat.
Proof.
  unfold correlations_grid. intros H%result_mapM_Forall2.
  rewrite <-(Forall2_length _ _ _ H), !length_zip_with. lia.
Qed.

(** The rows of one phase, when the grid has a cell for each in-plane
    rotation and orientation and at least [n_largest] cells. *)
Lemma correlate_phase_ok (image : list (list Qc)) (n : nat) (phase_index : nat)
    (e : library_entry) (grid : list (list Qc)) :
  correlations_grid image e = Ok grid →
  Forall (λ row, length row = length (orientations e)) grid →
  (1 ≤ n ≤ length (concat grid))%nat →
  ∃ block, correlate_phase image n phase_index e = Ok block
    ∧ length block = n
    ∧ Forall (λ r, tm_phase r = phase_index) block
    ∧ Forall (λ r, tm_correlation r ∈ concat grid) block
    ∧ StronglySorted (λ r r', tm_correlation r' ≤ tm_correlation r) block.
Proof.
  intros Hgrid Hrect Hn. unfold correlate_phase. rewrite Hgrid.
  cbn [mbind result_bind].
  set (flat := concat grid).
  set (no := length (default [] (head grid))).
  fold flat in Hn.
  assert (HG : length flat = (length grid * length (orientations e))%nat)
    by (by apply length_concat_uniform).
  assert (Hno : no = length (orientations e)).
  { unfold no. destruct grid as [|row grid]; [simpl in *; lia|].
    simpl. by apply Forall_cons in Hrect as [-> _]. }
  assert (Hno0 : (0 < no)%nat).
  { rewrite Hno. destruct (length (orientations e)); [|lia].
    rewrite Nat.mul_0_r in HG. lia. }
  assert (Hnin : length (pixel_coords e) ≠ 0%nat).
  { pose proof (correlations_grid_length _ _ _ Hgrid) as Hle.
    destruct (length grid); [simpl in HG; lia|lia]. }
  unfold argpartition. rewrite kth_in_bounds_neg by lia.
  cbn [mbind result_bind].
  unfold last_n. destruct (Nat.eqb_spec n 0) as [?|_]; [lia|].
  rewrite length_argsort.
  set (top0 := drop (length flat - n) (argsort flat)).
  assert (Htop0_len : length top0 = n).
  { unfold top0. rewrite length_drop, length_argsort. lia. }
  assert (Htop0 : Forall (λ k, (k < length flat)%nat) top0).
  { apply Forall_forall. intros k Hk. apply argsort_elem_of.
    eapply elem_of_sublist; [exact Hk|apply sublist_drop]. }
  set (tnc := take_indices 0 flat top0).
  assert (Htnc_len : length tnc = n)
    by (unfold tnc; by rewrite length_take_indices).
  set (sigma := reverse (argsort tnc)).
  assert (Hsigma : Forall (λ k, (k < length top0)%nat) sigma).
  { apply Forall_forall. intros k Hk. unfold sigma in Hk.
    rewrite elem_of_reverse, argsort_elem_of in Hk. lia. }
  set (top_n_indices := take_indices O top0 sigma).
  assert (Htni_len : length top_n_indices = n).
  { unfold top_n_indices, sigma.
    by rewrite length_take_indices, length_reverse, length_argsort. }
  assert (Htni : Forall (λ k, (k < length flat)%nat) top_n_indices).
  { apply Forall_forall. intros k Hk.
    apply (take_indices_elem_of O top0 sigma) in Hk; [|done].
    rewrite Forall_forall in Htop0. by apply Htop0. }
  rewrite py_div_ok by (by apply Qc_of_nat_ne_0).
  cbn [mbind result_bind].
  match goal with
  | |- context [result_mapM ?f (seq 0 n)] =>
      destruct (result_mapM_is_Ok f (seq 0 n)) as [orients Horients]
  end.
  { intros i Hi. apply elem_of_seq in Hi.
    destruct (lookup_lt_is_Some_2 top_n_indices i) as [k Hk]; [lia|].
    rewrite (getitem_nat _ _ _ Hk). cbn [mbind result_bind].
    unfold unravel_index.
    destruct (lookup_lt_is_Some_2 (orientations e) (k mod no)) as [o Ho].
    { rewrite <-Hno. apply Nat.mod_upper_bound. lia. }
    rewrite (getitem_nat _ _ _ Ho). by eexists. }
  rewrite Horients. cbn [mbind result_bind].
  assert (Horients_len : length orients = n).
  { apply result_mapM_Forall2, Forall2_length in Horients.
    by rewrite length_seq in Horients. }
  rewrite assign_slot_same by (by rewrite length_take_indices).
  cbn [mbind result_bind]. eexists. split; [done|].
  set (scores := take_indices 0 flat top_n_indices).
  assert (Hscores_len : length scores = n)
    by (unfold scores; by rewrite length_take_indices).
  assert (Hcorr : tm_correlation <$>
            zip_with (λ o s, {| tm_phase := phase_index;
                                tm_orientation := o;
                                tm_correlation := s |}) orients scores = scores).
  { apply fmap_zip_with_scores.
    transitivity n; [exact Horients_len|symmetry; exact Hscores_len]. }
  split_and!.
  - by rewrite <-(length_fmap tm_correlation), Hcorr.
  - apply Forall_forall. intros r Hr.
    apply list_elem_of_lookup_1 in Hr as [j Hj].
    apply lookup_zip_with_Some in Hj as (o & s & -> & _ & _). done.
  - apply Forall_forall. intros r Hr.
    apply (take_indices_elem_of 0 flat top_n_indices); [done|].
    fold scores. rewrite <-Hcorr. apply list_elem_of_fmap. by exists r.
  - apply (StronglySorted_fmap_inv tm_correlation (flip Qcle)).
    rewrite Hcorr. unfold scores, top_n_indices.
    rewrite take_indices_compose by done. fold tnc. unfold sigma.
    unfold take_indices. rewrite fmap_reverse.
    apply Sorted_StronglySorted; [apply _|].
    apply Sorted_reverse, StronglySorted_Sorted, sorted_values_sorted.
Qed.

(** C7, as stated, fails: asked for two rows from a phase that has a single
    template, [correlate_library] raises ([argpartition] rejects the rank)
    and returns no row at all. *)
Lemma correlate_library_too_many :
  correlate_library tiny_image [tiny_entry] 2 1 = Raise ValueError
  ∧ ¬ ∃ rows, correlate_library tiny_image [tiny_entry] 2 1 = Ok rows
              ∧ length rows = (length [tiny_entry] * 2)%nat.
Proof.
  assert (H : correlate_library tiny_image [tiny_entry] 2 1 = Raise ValueError)
    by (by vm_compute).
  split; [done|]. intros (rows & Hrows & _). by rewrite H in Hrows.
Qed.

(** C7, amended.  When the correlation grid of every phase has a cell for
    each in-plane rotation and orientation and [1 ≤ n ≤] the number of its
    cells, [correlate_library] with the mask set returns exactly [p * n]
    rows: one block of [n] rows per phase, in the order of the library,
    each row written and carrying the position of its phase; within a
    block the correlations are non-increasing and are cells of that
    phase's grid. *)
Theorem correlate_library_rows (image : list (list Qc))
    (library : list library_entry) (n : nat) :
  (∀ e, e ∈ library →
     ∃ grid, correlations_grid image e = Ok grid
       ∧ Forall (λ row, length row = length (orientations e)) grid
       ∧ (1 ≤ n ≤ length (concat grid))%nat) →
  ∃ rows blocks,
    correlate_library image library n 1 = Ok rows
    ∧ rows = Some <$> concat blocks
    ∧ length rows = (length library * n)%nat
    ∧ length blocks = length library
    ∧ ∀ i block, blocks !! i = Some block →
        length block = n
        ∧ Forall (λ r, tm_phase r = i) block
        ∧ StronglySorted (λ r r', tm_correlation r' ≤ tm_correlation r) block
        ∧ ∃ e grid, library !! i = Some e
            ∧ correlations_grid image e = Ok grid
            ∧ Forall (λ r, tm_correlation r ∈ concat grid) block.
Proof.
  intros Hlib. unfold correlate_library. simpl.
  set (f := λ c : nat * library_entry, correlate_phase image n c.1 c.2).
  destruct (result_mapM_is_Ok f (imap (λ i e, (i, e)) library)) as [blocks Hb].
  { intros [i e] Hc. apply list_elem_of_lookup_1 in Hc as [k Hk].
    rewrite list_lookup_imap in Hk.
    destruct (library !! k) as [e'|] eqn:He'; [|done].
    simpl in Hk. injection Hk as -> ->.
    destruct (Hlib e) as (grid & Hg & Hrect & Hn);
      [by eapply list_elem_of_lookup_2|].
    destruct (correlate_phase_ok image n i e grid Hg Hrect Hn) as (b & Hb & _).
    unfold f. simpl. rewrite Hb. by eexists. }
  rewrite Hb. cbn [mbind result_bind]. exists (Some <$> concat blocks), blocks.
  apply result_mapM_Forall2 in Hb.
  assert (Hblock : ∀ i block, blocks !! i = Some block →
    length block = n
    ∧ Forall (λ r, tm_phase r = i) block
    ∧ StronglySorted (λ r r', tm_correlation r' ≤ tm_correlation r) block
    ∧ ∃ e grid, library !! i = Some e
        ∧ correlations_grid image e = Ok grid
        ∧ Forall (λ r, tm_correlation r ∈ concat grid) block).
  { intros i block Hi.
    destruct (Forall2_lookup_r _ _ _ _ _ Hb Hi) as ([k e] & Hk & Hfk).
    rewrite list_lookup_imap in Hk.
    destruct (library !! i) as [e'|] eqn:He'; [|done].
    simpl in Hk. injection Hk as <- ->.
    destruct (Hlib e) as (grid & Hg & Hrect & Hn);
      [by eapply list_elem_of_lookup_2|].
    destruct (correlate_phase_ok image n i e grid Hg Hrect Hn)
      as (b & Hb' & Hlen & Hph & Hin & Hsorted).
    unfold f in Hfk. simpl in Hfk. rewrite Hb' in Hfk. simplify_eq.
    split_and!; [done..|]. by exists e, grid. }
  assert (Hlen : length blocks = length library).
  { by rewrite <-(Forall2_length _ _ _ Hb), length_imap. }
  split_and!; [done|done| |done|done].
  rewrite length_fmap, (length_concat_uniform _ n), Hlen; [done|].
  apply Forall_forall. intros b Hin.
  apply list_elem_of_lookup_1 in Hin as [i Hi]. by apply (Hblock i).
Qed.

(** * The theorems at sample inputs *)

(** Closes a [first_best] goal on a literal array of at most four cells. *)
Ltac first_best_literal :=
  split_and!;
  [ simpl; lia
  | intros [|[|[|[|?]]]] ?; simpl in *; try lia; by vm_compute
  | intros [|[|[|[|?]]]] ?; simpl in *; try lia; by vm_compute ].

(** Closes a [best_first_within_phases] goal on a literal list of at most
    four rows. *)
Ltac best_first_literal :=
  intros [|[|[|[|?]]]] [|[|[|[|?]]]] ? ? ? ? ? ?; simplify_eq/=;
  try lia; try done; by vm_compute.

(** C1 at the scenario of the specification: total errors 0.01 and 0.02 in
    phase 0, 0.05 in phase 1. *)
Lemma reducers_multi_phase_witness :
  ∃ e, crystal_from_vector_matching (G := sample_geometry)
         [vm_row 0 0.01; vm_row 0 0.02; vm_row 1 0.05] = Ok e
    ∧ ce_phase e = 0%nat
    ∧ ce_metrics e !! "orientation_reliability" = Some (MScalar (Qc_of_Z 50))
    ∧ ce_metrics e !! "phase_reliability" = Some (MScalar (Qc_of_Z 80)).
Proof.
  apply (proj2 (proj2 (reducers_multi_phase (G := sample_geometry)))
           (vm_row 0 0.01) (vm_row 0 0.02) (vm_row 1 0.05)); by simpl.
Defined.

(** C2 at two phases without solutions and two retained slots each. *)
Lemma match_vectors_rows_witness :
  ∃ rows rhkls,
    match_vectors (G := sample_geometry) (FloatArray sample_peaks)
      [(far_phase, tt); (far_phase, tt)]
      (Q2Qc 0.1) (Q2Qc 0.1) (Q2Qc 0.1) 3 2 = Ok (rows, rhkls)
    ∧ length rows = 4%nat.
Proof.
  destruct (match_vectors_rows (G := sample_geometry) sample_peaks
              [(far_phase, tt); (far_phase, tt)]
              (Q2Qc 0.1) (Q2Qc 0.1) (Q2Qc 0.1) 3 2)
    as (rows & rhkls & Hres & Hlen & _); [lia|].
  by exists rows, rhkls.
Defined.

(** C3 at two template rows of phase 0, correlations 0.9 and 0.5. *)
Lemma reducers_single_phase_witness :
  ∃ e, crystal_from_template_matching [tm_row 0 0.9; tm_row 0 0.5] = Ok e
    ∧ ce_phase e = 0%nat
    ∧ ce_metrics e !! "phase_reliability" = None.
Proof.
  destruct (proj1 (reducers_single_phase (G := sample_geometry))
              [tm_row 0 0.9; tm_row 0 0.5] 0%nat
              (tm_row 0 0.9) (tm_row 0 0.5))
    as (e & He & Hp & _ & _ & _ & Hnone);
    [by repeat constructor|done|done|done|].
  by exists e.
Defined.

(** C4 at the identity rotation: the three sample peaks are indexed exactly,
    so the candidate is appended. *)
Lemma candidate_retained_iff_witness :
  is_Some (evaluate_rotation (G := sample_geometry)
             sample_peaks tt (Q2Qc 0.1) 0 identity3).
Proof.
  destruct (proj1 (candidate_retained_iff (G := sample_geometry)
                     sample_peaks tt (Q2Qc 0.1))
              0%nat identity3) as [[_ H] _].
  apply H. vm_compute. lia.
Defined.


(** C7 at two phases of two templates each and two retained rows. *)
Lemma correlate_library_rows_witness :
  ∃ rows blocks,
    correlate_library pair_image [pair_entry; pair_entry] 2 1 = Ok rows
    ∧ rows = Some <$> concat blocks
    ∧ length rows = 4%nat.
Proof.
  destruct (correlate_library_rows pair_image [pair_entry; pair_entry] 2)
    as (rows & blocks & H1 & H2 & H3 & _).
  { intros e He.
    assert (e = pair_entry) as ->.
    { apply elem_of_cons in He as [->|He]; [done|].
      by apply list_elem_of_singleton in He. }
    eexists. split; [vm_compute; reflexivity|].
    split_and!; [by repeat constructor|simpl; lia|simpl; lia]. }
  by exists rows, blocks.
Defined.


(** C9 at two phases of one row each. *)
Lemma reducers_raise_without_runner_up_witness :
  ∃ e, crystal_from_template_matching [tm_row 0 0.9; tm_row 1 0.3] = Raise e
    ∧ (e = IndexError ∨ e = ValueError).
Proof.
  apply (proj1 (reducers_raise_without_runner_up (G := sample_geometry))
           [tm_row 0 0.9; tm_row 1 0.3] 0%nat (tm_row 0 0.9)).
  - first_best_literal.
  - done.
  - simpl. lia.
Defined.

(** * Further properties of the functions *)

(** ** _sort_solutions: nothing lost, and shorter requests are prefixes *)

Lemma omap_lookup_seq {A} (l1 l2 : list A) :
  omap (λ i, (l1 ++ l2) !! i) (seq (length l1) (length l2)) = l2.
Proof.
  revert l1. induction l2 as [|x l2 IH]; intros l1; [done|].
  simpl. rewrite list_lookup_middle by done. f_equal.
  specialize (IH (l1 ++ [x])).
  rewrite length_app, Nat.add_1_r, <-app_assoc in IH. done.
Qed.

Lemma omap_take_total {A B} (f : A → option B) (l : list A) (m : nat) :
  Forall (λ x, is_Some (f x)) l → omap f (take m l) = take m (omap f l).
Proof.
  intros Hl. revert m. induction Hl as [|x l [y Hy] _ IH]; intros m.
  - by destruct m.
  - destruct m as [|m]; [done|]. simpl. rewrite Hy. simpl. by rewrite IH.
Qed.

Lemma ranking_lookups_total (solutions : list solution) :
  Forall (λ i, is_Some (solutions !! i))
    (reverse (argsort (sol_match_rate <$> solutions))).
Proof.
  apply Forall_forall. intros i Hi.
  rewrite elem_of_reverse, argsort_elem_of, length_fmap in Hi.
  by apply lookup_lt_is_Some_2.
Qed.

(** When at least as many solutions are requested as there are, the ranker
    returns all of them, each once: the result is a permutation of the
    input. *)
Theorem sort_solutions_all (solutions : list solution) (n_solutions : nat) :
  (length solutions ≤ n_solutions)%nat →
  _sort_solutions solutions n_solutions ≡ₚ solutions.
Proof.
  intros Hn. unfold _sort_solutions.
  rewrite take_ge
    by (rewrite length_reverse, length_argsort, length_fmap; lia).
  rewrite reverse_Permutation, argsort_perm, length_fmap.
  apply (reflexive_eq _ _ (omap_lookup_seq [] solutions)).
Qed.

(** Asking for fewer solutions gives the first rows of what a larger
    request returns: the ranking does not depend on the count. *)
Theorem sort_solutions_prefix (solutions : list solution) (m n : nat) :
  (m ≤ n)%nat →
  _sort_solutions solutions m = take m (_sort_solutions solutions n).
Proof.
  intros Hmn. unfold _sort_solutions.
  pose proof (ranking_lookups_total solutions) as Htot.
  rewrite !omap_take_total by done.
  rewrite take_take. f_equal. lia.
Qed.

(** ** _choose_peak_ids: no peaks, or no index requested *)

Lemma choose_peak_ids_none_of_many `{G : Geometry} (peaks : list vec3) :
  (2 ≤ length peaks)%nat → _choose_peak_ids peaks 0 = Raise ValueError.
Proof.
  intros Hlen. unfold _choose_peak_ids.
  rewrite Nat.min_0_r.
  change ((0 + 1) / 2)%nat with 0%nat. change (- Z.of_nat 0)%Z with 0%Z.
  unfold argpartition. rewrite length_fmap.
  rewrite (kth_in_bounds_nat _ 0) by lia. cbn [mbind result_bind].
  unfold last_n, assign_slot. simpl.
  pose proof (length_argsort (linalg_norm <$> peaks)) as Hs.
  rewrite length_fmap in Hs.
  destruct (argsort (linalg_norm <$> peaks)) as [|a [|b s]];
    simpl in *; try lia.
  change 0%Z with (Z.of_nat 0). by rewrite kth_in_bounds_nat by lia.
Qed.

(** Without peaks the selector returns no index, whatever the count.  With
    a count of 0 the slice [[-0:]] is the whole array of indices, so the
    first slice assignment receives one index per peak for an empty slot:
    a single peak still broadcasts into it, two or more raise. *)
Theorem choose_peak_ids_degenerate `{G : Geometry} :
  (∀ k, _choose_peak_ids [] k = Ok [])
  ∧ (∀ peaks, length peaks = 1%nat → _choose_peak_ids peaks 0 = Ok [])
  ∧ (∀ peaks, (2 ≤ length peaks)%nat →
       _choose_peak_ids peaks 0 = Raise ValueError).
Proof.
  split_and!.
  - done.
  - intros [|p [|q peaks]] Hlen; simplify_eq/=. done.
  - apply choose_peak_ids_none_of_many.
Qed.

(** ** The reducers on fewer than two rows *)

(** Neither reducer returns an entry from fewer than two rows: no row at
    all makes [np.argmax] (or [np.argmin]) raise [ValueError], a single row
    makes the read of the second row raise [IndexError]. *)
Theorem reducers_need_two_rows `{G : Geometry} :
  (∀ zs : list template_match, (length zs < 2)%nat →
     crystal_from_template_matching zs
     = Raise (match zs with [] => ValueError | _ => IndexError end))
  ∧ (∀ zs : list vector_match, (length zs < 2)%nat →
     crystal_from_vector_matching zs
     = Raise (match zs with [] => ValueError | _ => IndexError end)).
Proof.
  split; intros [|x [|y zs]] Hlen; simpl in Hlen; try lia; done.
Qed.

(** ** Rational arithmetic used below *)

Lemma Qcdiv_bounds (a b : Qc) : 0 ≤ a → a ≤ b → 0 < b → 0 ≤ a / b ≤ 1.
Proof.
  intros Ha Hab Hb. unfold Qcdiv.
  assert (Hinv : 0 ≤ / b) by (by apply Qclt_le_weak, Qcinv_pos).
  split; [by apply Qcmult_nonneg_nonneg|].
  rewrite <-(Qcmult_inv_r b) by (intros ->; by apply (irreflexivity Qclt 0)).
  by apply Qcmult_le_mono_nonneg_r.
Qed.

Lemma Qcdiv_pos (a b : Qc) : 0 < a → 0 < b → 0 < a / b.
Proof. intros Ha Hb. apply Qcmult_pos_pos; [done|by apply Qcinv_pos]. Qed.

Lemma Qcdiv_lt_mult (a m t : Qc) : 0 < m → a < m * t → a / m < t.
Proof.
  intros Hm Ha. unfold Qcdiv.
  assert (Hne : m ≠ 0) by (intros ->; by apply (irreflexivity Qclt 0)).
  replace t with ((m * t) * / m) by (by field).
  by apply Qcmult_lt_compat_r; [apply Qcinv_pos|].
Qed.

Lemma Qc_of_nat_S (n : nat) : Qc_of_nat (S n) = 1 + Qc_of_nat n.
Proof.
  unfold Qc_of_nat. rewrite Nat2Z.inj_succ, <-Z.add_1_l, Z2Qc_inj_add.
  by rewrite Z2Qc_inj_1.
Qed.

Lemma Qc_of_nat_le (m n : nat) : (m ≤ n)%nat → Qc_of_nat m ≤ Qc_of_nat n.
Proof. intros H. apply (proj1 (Z2Qc_inj_le _ _)). lia. Qed.

Lemma Qc_of_nat_pos (n : nat) : (0 < n)%nat → 0 < Qc_of_nat n.
Proof.
  intros H. unfold Qc_of_nat. rewrite <-Z2Qc_inj_0.
  apply (proj1 (Z2Qc_inj_lt _ _)). lia.
Qed.

Lemma reliability_bounds (a b : Qc) :
  0 ≤ a → a ≤ b → 0 < b →
  0 ≤ reliability (a / b) ≤ Qc_of_Z 100.
Proof.
  intros Ha Hab Hb. destruct (Qcdiv_bounds a b Ha Hab Hb) as [H0 H1].
  unfold reliability.
  assert (H100 : 0 ≤ Qc_of_Z 100) by done.
  assert (Hlo : 0 ≤ 1 - a / b) by (by apply Qcle_minus_iff in H1).
  assert (Hhi : 1 - a / b ≤ 1).
  { apply Qcle_minus_iff. by replace (1 + - (1 - a / b)) with (a / b) by ring. }
  split; [by apply Qcmult_nonneg_nonneg|].
  rewrite <-(Qcmult_1_r (Qc_of_Z 100)) at 2.
  by apply Qcmult_le_mono_nonneg_l.
Qed.

Lemma Qcsum_nonneg (l : list Qc) : Forall (λ x, 0 ≤ x) l → 0 ≤ Qcsum l.
Proof.
  induction 1 as [|x l Hx _ IH]; simpl; [done|].
  replace 0 with (0 + 0) by ring. by apply Qcplus_le_compat.
Qed.

Lemma Qcsum_lt (x : Qc) (l : list Qc) (t : Qc) :
  x < t → Forall (λ y, y < t) l →
  Qcsum (x :: l) < Qc_of_nat (S (length l)) * t.
Proof.
  intros Hx Hl. revert x Hx. induction Hl as [|y l Hy _ IH]; intros x Hx.
  - simpl. rewrite Qc_of_nat_S.
    change (Qc_of_nat 0) with (Qc_of_Z 0). rewrite Z2Qc_inj_0.
    replace (x + 0) with x by ring.
    by replace ((1 + 0) * t) with t by ring.
  - specialize (IH y Hy). simpl in *.
    rewrite (Qc_of_nat_S (S (length l))).
    replace ((1 + Qc_of_nat (S (length l))) * t)
      with (t + Qc_of_nat (S (length l)) * t) by ring.
    eapply Qclt_trans; [apply Qcplus_lt_mono_r, Hx|].
    by apply Qcplus_lt_mono_l.
Qed.

Lemma Qcmax_ge_l (x y : Qc) : x ≤ Qcmax x y.
Proof. unfold Qcmax. case_decide; [by apply Qclt_le_weak|done]. Qed.

Lemma Qcmax_ge_r (x y : Qc) : y ≤ Qcmax x y.
Proof. unfold Qcmax. case_decide; [done|by apply Qcnot_lt_le]. Qed.

Lemma vec_entries_le_max (e : vec3) (x : Qc) : x ∈ vec_entries e → x ≤ vec_max e.
Proof.
  destruct e as [[a b] c]. simpl. intros Hx.
  apply elem_of_cons in Hx as [->|Hx].
  { etrans; [apply Qcmax_ge_l|apply Qcmax_ge_l]. }
  apply elem_of_cons in Hx as [->|Hx].
  { etrans; [apply Qcmax_ge_r|apply Qcmax_ge_l]. }
  apply list_elem_of_singleton in Hx as ->. apply Qcmax_ge_r.
Qed.

(** ** What a retained solution looks like *)

Section Solutions.
Context `{G : Geometry}.

Lemma hkl_errors_nonneg (hkls : list vec3) (e : vec3) (x : Qc) :
  e ∈ hkl_errors hkls → x ∈ vec_entries e → 0 ≤ x.
Proof.
  unfold hkl_errors. intros He Hx.
  apply elem_of_zip_with in He as ([[a b] c] & [[a' b'] c'] & -> & _ & _).
  simpl in Hx.
  apply elem_of_cons in Hx as [->|Hx]; [apply Qcabs_nonneg|].
  apply elem_of_cons in Hx as [->|Hx]; [apply Qcabs_nonneg|].
  apply list_elem_of_singleton in Hx as ->. apply Qcabs_nonneg.
Qed.

Lemma length_bind_entries (l : list vec3) :
  length (l ≫= vec_entries) = (3 * length l)%nat.
Proof.
  induction l as [|[[a b] c] l IH]; [done|].
  cbn [mbind list_bind]. rewrite length_app, IH. simpl. lia.
Qed.

Lemma evaluate_rotation_shape (peaks : list vec3) (lattice_recip : lattice)
    (index_error_tol : Qc) (vector_pair_index : nat) (R : mat3)
    (s : solution) (rhkls : list vec3) :
  evaluate_rotation peaks lattice_recip index_error_tol vector_pair_index R
  = Some (s, rhkls) →
  (3 ≤ length peaks)%nat
  ∧ length (sol_ehkls s) = length peaks ∧ length rhkls = length peaks
  ∧ sol_vector_pair_index s = vector_pair_index.
Proof.
  unfold evaluate_rotation.
  set (ehkls := hkl_errors (rotated_hkls peaks lattice_recip R)).
  rewrite count_mask.
  set (valid := filter (λ e, vec_max e < index_error_tol) ehkls).
  assert (Hlen : length ehkls = length peaks).
  { unfold ehkls, rotated_hkls. by rewrite length_hkl_errors, length_fmap. }
  assert (Hle : (length valid ≤ length peaks)%nat).
  { rewrite <-Hlen. apply length_filter. }
  destruct (Nat.ltb_spec 2 (length valid)) as [Hc|Hc]; [|done].
  intros [= <- <-]. simpl. split_and!; [lia|done| |done].
  unfold rounded_hkls, rotated_hkls. by rewrite !length_fmap.
Qed.

Lemma evaluate_rotation_bounds (peaks : list vec3) (lattice_recip : lattice)
    (index_error_tol : Qc) (vector_pair_index : nat) (R : mat3)
    (s : solution) (rhkls : list vec3) :
  evaluate_rotation peaks lattice_recip index_error_tol vector_pair_index R
  = Some (s, rhkls) →
  0 < sol_match_rate s ≤ 1 ∧ 0 ≤ sol_error_mean s < index_error_tol.
Proof.
  unfold evaluate_rotation.
  set (ehkls := hkl_errors (rotated_hkls peaks lattice_recip R)).
  rewrite count_mask, select_mask_filter.
  set (valid := filter (λ e, vec_max e < index_error_tol) ehkls).
  assert (Hlen : length ehkls = length peaks).
  { unfold ehkls, rotated_hkls. by rewrite length_hkl_errors, length_fmap. }
  assert (Hle : (length valid ≤ length peaks)%nat).
  { rewrite <-Hlen. apply length_filter. }
  destruct (Nat.ltb_spec 2 (length valid)) as [Hc|Hc]; [|done].
  intros [= <- <-]. simpl.
  destruct (Nat.eqb_spec (length peaks) 0) as [?|_]; [lia|].
  split_and!.
  - apply Qcdiv_pos; apply Qc_of_nat_pos; lia.
  - apply Qcdiv_bounds; [apply Qclt_le_weak, Qc_of_nat_pos; lia
                         |by apply Qc_of_nat_le|apply Qc_of_nat_pos; lia].
  - unfold mean_entries.
    apply Qcmult_nonneg_nonneg.
    + apply Qcsum_nonneg, Forall_forall. intros x Hx.
      apply list_elem_of_bind in Hx as (e & Hx & He).
      apply list_elem_of_filter in He as [_ He].
      by apply (hkl_errors_nonneg (rotated_hkls peaks lattice_recip R) e).
    + apply Qclt_le_weak, Qcinv_pos, Qc_of_nat_pos. lia.
  - unfold mean_entries.
    apply Qcdiv_lt_mult; [apply Qc_of_nat_pos; lia|].
    pose proof (length_bind_entries valid) as Hm.
    assert (Hall : Forall (λ y, y < index_error_tol) (valid ≫= vec_entries)).
    { apply Forall_forall. intros x Hx.
      apply list_elem_of_bind in Hx as (e & Hx & He).
      apply list_elem_of_filter in He as [He _].
      eapply Qcle_lt_trans; [by apply vec_entries_le_max|done]. }
    destruct (valid ≫= vec_entries) as [|x l]; [simpl in Hm; lia|].
    apply Forall_cons in Hall as [Hx Hl].
    rewrite <-Hm. by apply Qcsum_lt.
Qed.

(** Every appended solution indexes at least three peaks: its match rate
    lies in (0, 1], its mean error in [0, index_error_tol), and its error
    array and its rounded indices have one row per peak. *)
Theorem evaluate_rotation_solution (peaks : list vec3) (lattice_recip : lattice)
    (index_error_tol : Qc) (vector_pair_index : nat) (R : mat3)
    (s : solution) (rhkls : list vec3) :
  evaluate_rotation peaks lattice_recip index_error_tol vector_pair_index R
  = Some (s, rhkls) →
  (3 ≤ length peaks)%nat
  ∧ length (sol_ehkls s) = length peaks ∧ length rhkls = length peaks
  ∧ sol_vector_pair_index s = vector_pair_index
  ∧ 0 < sol_match_rate s ≤ 1
  ∧ 0 ≤ sol_error_mean s < index_error_tol.
Proof.
  intros He.
  destruct (evaluate_rotation_shape _ _ _ _ _ _ _ He) as (H3 & Hel & Hrl & Hvpi).
  destruct (evaluate_rotation_bounds _ _ _ _ _ _ _ He) as [[? ?] [? ?]].
  by split_and!.
Qed.

End Solutions.

(** ** The rows and the diagnostics of match_vectors *)

Lemma result_mapM_imap_lookup {E B} (f : nat * E → result B) (l : list E)
    (ys : list B) :
  result_mapM f (imap (λ i e, (i, e)) l) = Ok ys →
  length ys = length l
  ∧ ∀ i e y, l !! i = Some e → ys !! i = Some y → f (i, e) = Ok y.
Proof.
  intros H%result_mapM_Forall2. split.
  - by rewrite <-(Forall2_length _ _ _ H), length_imap.
  - intros i e y He Hy.
    assert (Hc : imap (λ i e, (i, e)) l !! i = Some (i, e))
      by (by rewrite list_lookup_imap, He).
    destruct (Forall2_lookup_l _ _ _ _ _ H Hc) as (y' & Hy' & Hf).
    by simplify_eq.
Qed.

Lemma sort_solutions_elem_of (solutions : list solution) (n : nat) (s : solution) :
  s ∈ _sort_solutions solutions n → s ∈ solutions.
Proof.
  unfold _sort_solutions. intros Hs.
  apply list_elem_of_omap in Hs as (i & _ & Hi).
  by eapply list_elem_of_lookup_2.
Qed.

Lemma elem_of_concat {A} (x : A) (ls : list (list A)) :
  x ∈ concat ls ↔ ∃ l, x ∈ l ∧ l ∈ ls.
Proof.
  induction ls as [|l ls IH]; simpl.
  - split; [by intros ?%elem_of_nil|by intros (l & _ & ?%elem_of_nil)].
  - rewrite elem_of_app, IH. split.
    + intros [H|(l' & H & Hl')]; [exists l; split; [done|left]|].
      exists l'. split; [done|by right].
    + intros (l' & H & Hl'). apply elem_of_cons in Hl' as [->|Hl']; [by left|].
      right. by exists l'.
Qed.

Lemma length_concat_sum {A} (ls : list (list A)) :
  length (concat ls) = sum_list (length <$> ls).
Proof.
  induction ls as [|l ls IH]; [done|]. simpl. by rewrite length_app, IH.
Qed.

Lemma concat_replicate_replicate {A} (p n : nat) (x : A) :
  concat (replicate p (replicate n x)) = replicate (p * n) x.
Proof.
  induction p as [|p IH]; [done|]. simpl. by rewrite IH, replicate_add.
Qed.

Section MatchVectorsRows.
Context `{G : Geometry}.

Lemma phase_rows_elem_of (phase_index n_best : nat) (solutions : list solution)
    (r : vector_match) :
  r ∈ phase_rows phase_index n_best solutions →
  r = dummy_row ∨ ∃ s, s ∈ solutions ∧ r = solution_row phase_index s.
Proof.
  unfold phase_rows. intros Hr. apply elem_of_app in Hr as [Hr|Hr].
  - destruct (_ <? _)%nat; [|by apply elem_of_nil in Hr].
    apply list_elem_of_fmap in Hr as (s & -> & Hs).
    right. exists s. split; [|done]. by eapply sort_solutions_elem_of.
  - destruct (_ <? _)%nat; [|by apply elem_of_nil in Hr].
    apply elem_of_replicate in Hr as [-> _]. by left.
Qed.

Lemma phase_rows_nil (phase_index n_best : nat) :
  phase_rows phase_index n_best [] = replicate n_best dummy_row.
Proof.
  unfold phase_rows. simpl. rewrite Nat.min_0_r. simpl.
  rewrite Nat.sub_0_r. by destruct n_best.
Qed.

Lemma match_phases_inv (peaks : list vec3)
    (library : list (vector_phase * lattice))
    (mag_tol angle_tol tol : Qc) (n_peaks_to_index n_best : nat)
    (rows : list vector_match) (rhkls : list (list vec3)) :
  match_phases peaks library mag_tol angle_tol tol n_peaks_to_index n_best
  = Ok (rows, rhkls) →
  ∃ per : list (list vector_match * list (list vec3)),
    rows = concat (fst <$> per) ∧ rhkls = concat (snd <$> per)
    ∧ length per = length library
    ∧ ∀ i phase lat y, library !! i = Some (phase, lat) → per !! i = Some y →
        ∃ cands,
          phase_candidates peaks phase lat mag_tol angle_tol tol
            n_peaks_to_index = Ok cands
          ∧ y = (phase_rows i n_best (fst <$> cands), snd <$> cands).
Proof.
  unfold match_phases. intros H.
  apply bind_Ok_inv in H as (per & Hper & [= <- <-]).
  apply result_mapM_imap_lookup in Hper as [Hlen Hper].
  exists per. split_and!; [done..|].
  intros i phase lat y Hi Hy. specialize (Hper i (phase, lat) y Hi Hy).
  simpl in Hper. apply bind_Ok_inv in Hper as (cands & Hc & [= <-]).
  by exists cands.
Qed.

(** Every row [match_vectors] returns is either the dummy row or a
    solution of one of the phases of the library: its phase field is the
    position of a phase, its match rate lies in (0, 1], its total error in
    [0, index_error_tol), and its error array has one row per peak. *)
Theorem match_vectors_row_invariant (peaks : list vec3)
    (library : list (vector_phase * lattice))
    (mag_tol angle_tol index_error_tol : Qc) (n_peaks_to_index n_best : nat) :
  (1 ≤ n_peaks_to_index)%nat →
  ∃ rows rhkls,
    match_vectors (FloatArray peaks) library mag_tol angle_tol index_error_tol
      n_peaks_to_index n_best = Ok (rows, rhkls)
    ∧ Forall (λ r,
        r = dummy_row
        ∨ ((vm_phase r < length library)%nat
           ∧ 0 < vm_match_rate r ≤ 1
           ∧ 0 ≤ vm_total_error r < index_error_tol
           ∧ length (vm_ehkls r) = length peaks)) rows.
Proof.
  intros Hn.
  destruct (match_phases_rows peaks library mag_tol angle_tol index_error_tol
              n_peaks_to_index n_best Hn) as (rows & rhkls & Hres & _).
  exists rows, rhkls. split; [done|].
  apply match_phases_inv in Hres as (per & -> & _ & Hlen & Hper).
  apply Forall_forall. intros r Hr.
  apply elem_of_concat in Hr as (blk & Hr & Hblk).
  apply list_elem_of_fmap in Hblk as (y & -> & Hy).
  apply list_elem_of_lookup_1 in Hy as [i Hi].
  destruct (lookup_lt_is_Some_2 library i) as [[phase lat] Hl].
  { rewrite <-Hlen. by eapply lookup_lt_Some. }
  destruct (Hper i phase lat y Hl Hi) as (cands & Hc & ->). simpl in Hr.
  apply phase_rows_elem_of in Hr as [->|(s & Hs & ->)]; [by left|right].
  apply list_elem_of_fmap in Hs as ([s' rh] & -> & Hin). simpl.
  destruct (phase_candidates_evaluated _ _ _ _ _ _ _ _ _ Hc Hin) as (vpi & R & He).
  destruct (evaluate_rotation_shape _ _ _ _ _ _ _ He) as (_ & Hle & _).
  destruct (evaluate_rotation_bounds _ _ _ _ _ _ _ He) as [Hrate Herr].
  split_and!; try done; try apply Hrate; try apply Herr.
  by eapply lookup_lt_Some.
Qed.

Lemma match_phases_all_dummy (peaks : list vec3)
    (library : list (vector_phase * lattice))
    (mag_tol angle_tol index_error_tol : Qc) (n_peaks_to_index n_best : nat) :
  (length peaks < 3)%nat → (1 ≤ n_peaks_to_index)%nat →
  match_phases peaks library mag_tol angle_tol index_error_tol
    n_peaks_to_index n_best
  = Ok (replicate (length library * n_best) dummy_row, []).
Proof.
  intros Hfew Hn.
  destruct (match_phases_rows peaks library mag_tol angle_tol index_error_tol
              n_peaks_to_index n_best Hn) as (rows & rhkls & Hres & _).
  rewrite Hres. f_equal.
  apply match_phases_inv in Hres as (per & -> & -> & Hlen & Hper).
  assert (Hall : per = replicate (length library) (replicate n_best dummy_row, [])).
  { apply list_eq_same_length with (length library);
      [by rewrite length_replicate|done|].
    intros i x y Hi Hx Hy. apply lookup_replicate in Hy as [-> _].
    destruct (lookup_lt_is_Some_2 library i Hi) as [[phase lat] Hl].
    destruct (Hper i phase lat x Hl Hx) as (cands & Hc & ->).
    destruct cands as [|c cands]; [by rewrite phase_rows_nil|].
    exfalso.
    destruct (phase_candidates_evaluated _ _ _ _ _ _ _ _ c Hc) as (vpi & R & He);
      [left|].
    destruct c as [s rh].
    apply evaluate_rotation_shape in He as (H3 & _). lia. }
  rewrite Hall, !fmap_replicate. simpl.
  rewrite concat_replicate_replicate. f_equal.
  clear. induction (length library); [done|]. simpl. done.
Qed.

(** With fewer than three peaks no rotation can index more than two of
    them: every slot of every phase holds the dummy row and no rounded
    index array is reported. *)
Theorem match_vectors_few_peaks (peaks : list vec3)
    (library : list (vector_phase * lattice))
    (mag_tol angle_tol index_error_tol : Qc) (n_peaks_to_index n_best : nat) :
  (length peaks < 3)%nat → (1 ≤ n_peaks_to_index)%nat →
  match_vectors (FloatArray peaks) library mag_tol angle_tol index_error_tol
    n_peaks_to_index n_best
  = Ok (replicate (length library * n_best) dummy_row, []).
Proof. intros Hfew Hn. unfold match_vectors. by apply match_phases_all_dummy. Qed.

(** The second result holds one array of rounded indices, with one row per
    peak, for every solution found in any phase, also for the solutions
    that the cut to [n_best] leaves out of the rows. *)
Theorem match_vectors_rhkls (peaks : list vec3)
    (library : list (vector_phase * lattice))
    (mag_tol angle_tol index_error_tol : Qc) (n_peaks_to_index n_best : nat) :
  (1 ≤ n_peaks_to_index)%nat →
  ∃ rows rhkls counts,
    match_vectors (FloatArray peaks) library mag_tol angle_tol index_error_tol
      n_peaks_to_index n_best = Ok (rows, rhkls)
    ∧ length counts = length library
    ∧ (∀ i phase lat m, library !! i = Some (phase, lat) → counts !! i = Some m →
         ∃ cands,
           phase_candidates peaks phase lat mag_tol angle_tol index_error_tol
             n_peaks_to_index = Ok cands
           ∧ length cands = m)
    ∧ length rhkls = sum_list counts
    ∧ Forall (λ a, length a = length peaks) rhkls.
Proof.
  intros Hn.
  destruct (match_phases_rows peaks library mag_tol angle_tol index_error_tol
              n_peaks_to_index n_best Hn) as (rows & rhkls & Hres & _).
  exists rows, rhkls. pose proof Hres as Hinv.
  apply match_phases_inv in Hinv as (per & _ & -> & Hlen & Hper).
  exists ((λ y, length y.2) <$> per). split_and!; [done| | | |].
  - by rewrite length_fmap.
  - intros i phase lat m Hl Hm. rewrite list_lookup_fmap in Hm.
    destruct (per !! i) as [y|] eqn:Hy; simplify_eq/=.
    destruct (Hper i phase lat y Hl Hy) as (cands & Hc & ->).
    exists cands. split; [done|]. simpl. by rewrite length_fmap.
  - rewrite length_concat_sum. f_equal. by rewrite <-!list_fmap_compose.
  - apply Forall_forall. intros a Ha.
    apply elem_of_concat in Ha as (blk & Ha & Hblk).
    apply list_elem_of_fmap in Hblk as (y & -> & Hy).
    apply list_elem_of_lookup_1 in Hy as [i Hi].
    destruct (lookup_lt_is_Some_2 library i) as [[phase lat] Hl].
    { rewrite <-Hlen. by eapply lookup_lt_Some. }
    destruct (Hper i phase lat y Hl Hi) as (cands & Hc & ->). simpl in Ha.
    apply list_elem_of_fmap in Ha as ([s rh] & -> & Hin). simpl.
    destruct (phase_candidates_evaluated _ _ _ _ _ _ _ _ _ Hc Hin) as (vpi & R & He).
    by apply evaluate_rotation_shape in He as (_ & _ & Hrh & _).
Qed.

End MatchVectorsRows.

(** ** From too few peaks to the crystal map entry *)

Lemma reliability_one : reliability (1 / 1) = 0.
Proof. by apply Qc_is_canon. Qed.

(** With fewer than three peaks and at least two rows in all, the vector
    reducer applied to the rows of [match_vectors] takes the single-phase
    branch on dummy rows: phase 0, the Euler angles of the identity, match
    rate 0, total error 1 and an orientation reliability of 0, whatever
    the library holds. *)
Theorem few_peaks_crystal `{G : Geometry} (peaks : list vec3)
    (library : list (vector_phase * lattice))
    (mag_tol angle_tol index_error_tol : Qc) (n_peaks_to_index n_best : nat) :
  (length peaks < 3)%nat → (1 ≤ n_peaks_to_index)%nat →
  (2 ≤ length library * n_best)%nat →
  ∃ rows rhkls e,
    match_vectors (FloatArray peaks) library mag_tol angle_tol index_error_tol
      n_peaks_to_index n_best = Ok (rows, rhkls)
    ∧ crystal_from_vector_matching rows = Ok e
    ∧ ce_phase e = 0%nat
    ∧ ce_orientation e = mat2euler identity3
    ∧ ce_metrics e !! "match_rate" = Some (MScalar 0)
    ∧ ce_metrics e !! "ehkls" = Some (MArray [])
    ∧ ce_metrics e !! "total_error" = Some (MScalar 1)
    ∧ ce_metrics e !! "orientation_reliability" = Some (MScalar 0)
    ∧ ce_metrics e !! "phase_reliability" = None.
Proof.
  intros Hfew Hn Hrows.
  exists (replicate (length library * n_best) dummy_row), [].
  eexists. split; [unfold match_vectors; by apply match_phases_all_dummy|].
  split.
  - apply (vector_single_ok _ dummy_row dummy_row).
    + apply (n_unique_same _ _ 0%nat dummy_row).
      * apply lookup_replicate. split; [done|lia].
      * apply Forall_forall. by intros r [-> _]%elem_of_replicate.
    + apply lookup_replicate. split; [done|lia].
    + apply lookup_replicate. split; [done|lia].
    + done.
  - unfold vector_single_entry. simpl. rewrite reliability_one. by split_and!.
Qed.

(** ** The reliabilities are percentages *)

Lemma getitem_elem_of {A} (a : list A) (i : Z) (x : A) :
  getitem a i = Ok x → x ∈ a.
Proof.
  unfold getitem. destruct (_ <? 0)%Z; [done|].
  destruct (a !! _) as [y|] eqn:Hy; [|done].
  intros [= <-]. by eapply list_elem_of_lookup_2.
Qed.

Lemma partition_getitem_elem_of (a : list Qc) (k i : Z) (x : Qc) :
  (part ← partition a k; getitem part i) = Ok x → x ∈ a.
Proof.
  intros H. apply bind_Ok_inv in H as (part & Hp & Hx).
  unfold partition in Hp. destruct (kth_in_bounds _ _); [|done].
  injection Hp as <-. apply getitem_elem_of in Hx.
  by rewrite sorted_values_perm in Hx.
Qed.

Lemma Qc_pos_of_ne (x : Qc) : 0 ≤ x → x ≠ 0 → 0 < x.
Proof.
  intros Hx Hne. destruct (Qcle_lt_or_eq _ _ Hx) as [|Heq]; [done|].
  by destruct Hne.
Qed.

Lemma first_best_max (l : list Qc) (i : nat) (x : Qc) :
  first_best Qclt l i → x ∈ l → x ≤ qnth l i.
Proof.
  intros (_ & Hbest & _) Hx. apply list_elem_of_lookup_1 in Hx as [j Hj].
  rewrite <-(qnth_lookup _ _ _ Hj). apply Qcnot_lt_le, Hbest.
  by eapply lookup_lt_Some.
Qed.

Lemma first_best_min (l : list Qc) (i : nat) (x : Qc) :
  first_best (flip Qclt) l i → x ∈ l → qnth l i ≤ x.
Proof.
  intros (_ & Hbest & _) Hx. apply list_elem_of_lookup_1 in Hx as [j Hj].
  rewrite <-(qnth_lookup _ _ _ Hj). apply Qcnot_lt_le, Hbest.
  by eapply lookup_lt_Some.
Qed.

Lemma n_unique_one_phase {A} (phase : A → nat) (l : list A) (x y : A) :
  n_unique (phase <$> l) = 1%nat → x ∈ l → y ∈ l → phase x = phase y.
Proof.
  intros H Hx Hy. destruct (decide (phase x = phase y)) as [|Hne]; [done|].
  by destruct (n_unique_two phase l x y Hx Hy Hne).
Qed.

(** On rows that come best first within each phase and carry no negative
    correlation, every reliability the template reducer reports lies
    between 0 and 100. *)
Theorem template_reliability_percent (zs : list template_match)
    (e : crystal_entry) :
  best_first_within_phases tm_phase tm_no_better zs →
  Forall (λ r, 0 ≤ tm_correlation r) zs →
  crystal_from_template_matching zs = Ok e →
  (∃ q, ce_metrics e !! "orientation_reliability" = Some (MScalar q)
        ∧ 0 ≤ q ≤ Qc_of_Z 100)
  ∧ ∀ q, ce_metrics e !! "phase_reliability" = Some (MScalar q) →
         0 ≤ q ≤ Qc_of_Z 100.
Proof.
  intros Hsorted Hpos He. rewrite Forall_forall in Hpos.
  destruct (decide (n_unique (tm_phase <$> zs) = 1%nat)) as [H1|H1].
  - apply template_single_inv in He as (b & s & Hb & Hs & Hnz & ->); [|done].
    assert (Hbin : b ∈ zs) by (by eapply list_elem_of_lookup_2).
    assert (Hsin : s ∈ zs) by (by eapply list_elem_of_lookup_2).
    split; [|done].
    eexists. split; [done|].
    apply reliability_bounds; [by apply Hpos| |by apply Qc_pos_of_ne, Hnz; apply Hpos].
    apply (Hsorted 0%nat 1%nat b s); [lia|done|done|].
    by eapply n_unique_one_phase.
  - apply template_multi_inv in He
      as (i & b & so & sp & Hi & Hb & Hso & Hsp & Hnz & ->); [|done].
    assert (Hbin : b ∈ zs) by (by eapply list_elem_of_lookup_2).
    assert (Hbest : ∀ r, r ∈ zs → tm_correlation r ≤ tm_correlation b).
    { intros r Hr. rewrite <-(qnth_fmap tm_correlation zs i b Hb).
      apply first_best_max; [done|]. apply list_elem_of_fmap. by exists r. }
    assert (Hbpos : 0 < tm_correlation b) by (by apply Qc_pos_of_ne, Hnz; apply Hpos).
    apply partition_getitem_elem_of, list_elem_of_fmap in Hso
      as (r & -> & [_ Hr]%list_elem_of_filter).
    split.
    + eexists. split; [done|]. apply reliability_bounds; auto.
    + intros q Hq. simpl in Hq. injection Hq as <-.
      apply np_max_spec in Hsp as [Hsp _].
      apply list_elem_of_fmap in Hsp as (r' & -> & [_ Hr']%list_elem_of_filter).
      apply reliability_bounds; auto.
Qed.


(** ** correlate_library: which cells are reported *)

Lemma take_indices_perm {A} (d : A) (a : list A) (idx : list nat) :
  idx ≡ₚ seq 0 (length a) → take_indices d a idx ≡ₚ a.
Proof.
  intros H. unfold take_indices. rewrite H.
  apply (reflexive_eq _ _ (take_indices_seq d a)).
Qed.

Lemma lookup_take_indices {A} (d : A) (a : list A) (idx : list nat) (i k : nat) :
  idx !! i = Some k → take_indices d a idx !! i = Some (nth k a d).
Proof. intros H. unfold take_indices. by rewrite list_lookup_fmap, H. Qed.

Lemma StronglySorted_lookup {A} (R : relation A) (l : list A) (i j : nat) (x y : A) :
  StronglySorted R l → (i < j)%nat → l !! i = Some x → l !! j = Some y → R x y.
Proof.
  intros Hs. revert i j. induction Hs as [|z l Hs IH Hz]; intros i j Hij Hx Hy.
  - done.
  - destruct j as [|j]; [lia|]. simpl in Hy. destruct i as [|i].
    + simpl in Hx. injection Hx as <-. rewrite Forall_forall in Hz.
      apply Hz. by eapply list_elem_of_lookup_2.
    + simpl in Hx. apply (IH i j); [lia|done..].
Qed.

(** The rows of one phase, cell by cell. *)
Lemma correlate_phase_top (image : list (list Qc)) (n : nat) (phase_index : nat)
    (e : library_entry) (grid : list (list Qc)) :
  correlations_grid image e = Ok grid →
  Forall (λ row, length row = length (orientations e)) grid →
  (1 ≤ n ≤ length (concat grid))%nat →
  ∃ (idx : list nat) (block : list template_match),
    correlate_phase image n phase_index e = Ok block
    ∧ length idx = n ∧ NoDup idx
    ∧ Forall (λ k, (k < length (concat grid))%nat) idx
    ∧ (∀ j, (j < length (concat grid))%nat → j ∉ idx →
         Forall (λ k, qnth (concat grid) j ≤ qnth (concat grid) k) idx)
    ∧ Forall2 (row_of_cell e (concat grid) phase_index) idx block.
Proof.
  intros Hgrid Hrect Hn. unfold correlate_phase. rewrite Hgrid.
  cbn [mbind result_bind].
  set (flat := concat grid).
  set (no := length (default [] (head grid))).
  fold flat in Hn.
  assert (HG : length flat = (length grid * length (orientations e))%nat)
    by (by apply length_concat_uniform).
  assert (Hno : no = length (orientations e)).
  { unfold no. destruct grid as [|row grid]; [simpl in *; lia|].
    simpl. by apply Forall_cons in Hrect as [-> _]. }
  assert (Hno0 : (0 < no)%nat).
  { rewrite Hno. destruct (length (orientations e)); [|lia].
    rewrite Nat.mul_0_r in HG. lia. }
  assert (Hnin : length (pixel_coords e) ≠ 0%nat).
  { pose proof (correlations_grid_length _ _ _ Hgrid) as Hle.
    destruct (length grid); [simpl in HG; lia|lia]. }
  unfold argpartition. rewrite kth_in_bounds_neg by lia.
  cbn [mbind result_bind].
  unfold last_n. destruct (Nat.eqb_spec n 0) as [?|_]; [lia|].
  rewrite length_argsort.
  set (top0 := drop (length flat - n) (argsort flat)).
  assert (Htop0_len : length top0 = n).
  { unfold top0. rewrite length_drop, length_argsort. lia. }
  assert (Htop0 : Forall (λ k, (k < length flat)%nat) top0).
  { apply Forall_forall. intros k Hk. apply argsort_elem_of.
    eapply elem_of_sublist; [exact Hk|apply sublist_drop]. }
  set (tnc := take_indices 0 flat top0).
  assert (Htnc_len : length tnc = n)
    by (unfold tnc; by rewrite length_take_indices).
  set (sigma := reverse (argsort tnc)).
  assert (Hsigma : Forall (λ k, (k < length top0)%nat) sigma).
  { apply Forall_forall. intros k Hk. unfold sigma in Hk.
    rewrite elem_of_reverse, argsort_elem_of in Hk. lia. }
  set (top_n_indices := take_indices O top0 sigma).
  assert (Htni_len : length top_n_indices = n).
  { unfold top_n_indices, sigma.
    by rewrite length_take_indices, length_reverse, length_argsort. }
  assert (Htni_perm : top_n_indices ≡ₚ top0).
  { apply take_indices_perm. unfold sigma.
    by rewrite reverse_Permutation, argsort_perm, Htnc_len, Htop0_len. }
  assert (Htni : Forall (λ k, (k < length flat)%nat) top_n_indices)
    by (by rewrite Htni_perm).
  rewrite py_div_ok by (by apply Qc_of_nat_ne_0).
  cbn [mbind result_bind].
  match goal with
  | |- context [result_mapM ?f (seq 0 n)] =>
      set (fo := f);
      destruct (result_mapM_is_Ok fo (seq 0 n)) as [orients Horients]
  end.
  { intros i Hi. apply elem_of_seq in Hi.
    destruct (lookup_lt_is_Some_2 top_n_indices i) as [k Hk]; [lia|].
    unfold fo. rewrite (getitem_nat _ _ _ Hk). cbn [mbind result_bind].
    unfold unravel_index.
    destruct (lookup_lt_is_Some_2 (orientations e) (k mod no)) as [o Ho].
    { rewrite <-Hno. apply Nat.mod_upper_bound. lia. }
    rewrite (getitem_nat _ _ _ Ho). by eexists. }
  rewrite Horients. cbn [mbind result_bind].
  assert (Horients_len : length orients = n).
  { apply result_mapM_Forall2, Forall2_length in Horients.
    by rewrite length_seq in Horients. }
  rewrite assign_slot_same by (by rewrite length_take_indices).
  cbn [mbind result_bind]. exists top_n_indices. eexists. split; [done|].
  set (scores := take_indices 0 flat top_n_indices).
  assert (Hscores_len : length scores = n)
    by (unfold scores; by rewrite length_take_indices).
  split_and!.
  - done.
  - rewrite Htni_perm. unfold top0.
    eapply sublist_NoDup; [apply argsort_NoDup|apply sublist_drop].
  - done.
  - intros j Hj Hnot. rewrite Htni_perm. rewrite Htni_perm in Hnot.
    apply Forall_forall. intros k Hk.
    pose proof (argsort_sorted flat) as Hs.
    rewrite <-(take_drop (length flat - n) (argsort flat)) in Hs.
    apply key_index_lt_le.
    eapply (StronglySorted_app_1_elem_of _ _ _ _ _ Hs); [|exact Hk].
    apply argsort_elem_of in Hj.
    rewrite <-(take_drop (length flat - n) (argsort flat)) in Hj.
    apply elem_of_app in Hj as [Hj|Hj]; [done|by destruct Hnot].
  - apply Forall2_same_length_lookup_2.
    { rewrite <-(length_fmap tm_correlation (zip_with _ orients scores)).
      rewrite fmap_zip_with_scores; [by rewrite Hscores_len|].
      transitivity n; [exact Horients_len|symmetry; exact Hscores_len]. }
    intros i k r Hk Hr.
    apply lookup_zip_with_Some in Hr as (o & s & -> & Ho & Hs).
    unfold scores in Hs. rewrite (lookup_take_indices _ _ _ _ _ Hk) in Hs.
    injection Hs as <-.
    apply result_mapM_Forall2 in Horients.
    assert (Hi : seq 0 n !! i = Some i).
    { apply lookup_seq. split; [done|].
      rewrite <-Htni_len. by eapply lookup_lt_Some. }
    destruct (Forall2_lookup_l _ _ _ _ _ Horients Hi) as (o' & Ho' & Hf).
    assert (Some o' = Some o) as [= ->]
      by (etrans; [symmetry; exact Ho'|exact Ho]).
    unfold fo in Hf. rewrite (getitem_nat _ _ _ Hk) in Hf.
    cbn [mbind result_bind] in Hf. unfold unravel_index in Hf.
    apply bind_Ok_inv in Hf as (o0 & Ho0 & [= <-]).
    apply getitem_inv_nat in Ho0.
    split_and!; [done|done|].
    exists o0. rewrite <-Hno. done.
Qed.

Lemma correlate_library_blockwise (image : list (list Qc))
    (library : list library_entry) (n : nat)
    (P : nat → library_entry → list template_match → Prop) :
  (∀ i e, library !! i = Some e →
     ∃ block, correlate_phase image n i e = Ok block ∧ P i e block) →
  ∃ blocks,
    correlate_library image library n 1 = Ok (Some <$> concat blocks)
    ∧ length blocks = length library
    ∧ ∀ i block, blocks !! i = Some block →
        ∃ e, library !! i = Some e ∧ P i e block.
Proof.
  intros Hlib. unfold correlate_library. simpl.
  set (f := λ c : nat * library_entry, correlate_phase image n c.1 c.2).
  destruct (result_mapM_is_Ok f (imap (λ i e, (i, e)) library)) as [blocks Hb].
  { intros [i e] Hc. apply list_elem_of_lookup_1 in Hc as [k Hk].
    rewrite list_lookup_imap in Hk.
    destruct (library !! k) as [e'|] eqn:He'; [|done].
    simpl in Hk. injection Hk as -> ->.
    destruct (Hlib i e He') as (b & Hb & _).
    unfold f. simpl. rewrite Hb. by eexists. }
  rewrite Hb. cbn [mbind result_bind]. exists blocks.
  apply result_mapM_imap_lookup in Hb as [Hlen Hb].
  split_and!; [done..|].
  intros i block Hi.
  destruct (lookup_lt_is_Some_2 library i) as [e He].
  { rewrite <-Hlen. by eapply lookup_lt_Some. }
  exists e. split; [done|].
  destruct (Hlib i e He) as (b & Hb' & HP).
  specialize (Hb i e block He Hi). unfold f in Hb. cbn [fst snd] in Hb.
  rewrite Hb' in Hb. by injection Hb as <-.
Qed.

(** Under the conditions of the row count, the [n] rows of a phase report
    [n] distinct cells of its grid of correlations, each row with the
    content of its cell and the orientation the cell stands for, and no
    cell left out holds more than a reported one: the rows are the [n]
    largest correlations of the phase. *)
Theorem correlate_library_top_cells (image : list (list Qc))
    (library : list library_entry) (n : nat) :
  (∀ e, e ∈ library →
     ∃ grid, correlations_grid image e = Ok grid
       ∧ Forall (λ row, length row = length (orientations e)) grid
       ∧ (1 ≤ n ≤ length (concat grid))%nat) →
  ∃ blocks,
    correlate_library image library n 1 = Ok (Some <$> concat blocks)
    ∧ length blocks = length library
    ∧ ∀ i block, blocks !! i = Some block →
        ∃ e grid idx,
          library !! i = Some e ∧ correlations_grid image e = Ok grid
          ∧ length idx = n ∧ NoDup idx
          ∧ Forall (λ k, (k < length (concat grid))%nat) idx
          ∧ Forall2 (row_of_cell e (concat grid) i) idx block
          ∧ ∀ j, (j < length (concat grid))%nat → j ∉ idx →
              Forall (λ r, qnth (concat grid) j ≤ tm_correlation r) block.
Proof.
  intros Hlib.
  destruct (correlate_library_blockwise image library n
    (λ i e block, ∃ grid idx,
       correlations_grid image e = Ok grid
       ∧ length idx = n ∧ NoDup idx
       ∧ Forall (λ k, (k < length (concat grid))%nat) idx
       ∧ (∀ j, (j < length (concat grid))%nat → j ∉ idx →
            Forall (λ k, qnth (concat grid) j ≤ qnth (concat grid) k) idx)
       ∧ Forall2 (row_of_cell e (concat grid) i) idx block))
    as (blocks & Hres & Hlen & Hblocks).
  { intros i e He.
    destruct (Hlib e) as (grid & Hg & Hrect & Hn);
      [by eapply list_elem_of_lookup_2|].
    destruct (correlate_phase_top image n i e grid Hg Hrect Hn)
      as (idx & block & Hb & H). exists block. split; [done|].
    by exists grid, idx. }
  exists blocks. split_and!; [done..|].
  intros i block Hi.
  destruct (Hblocks i block Hi)
    as (e & He & grid & idx & Hg & Hlen' & Hnd & Hbound & Htop & Hrows).
  exists e, grid, idx. split_and!; [done..|].
  intros j Hj Hnot. specialize (Htop j Hj Hnot).
  rewrite Forall_forall in Htop. apply Forall_forall. intros r Hr.
  apply list_elem_of_lookup_1 in Hr as [m Hm].
  destruct (Forall2_lookup_r _ _ _ _ _ Hrows Hm) as (k & Hk & _ & -> & _).
  apply Htop. by eapply list_elem_of_lookup_2.
Qed.

(** ** correlate_library: requests it rejects *)

Lemma kth_out_of_bounds_neg (n m : nat) :
  (0 < n < m)%nat → kth_in_bounds n (- Z.of_nat m) = false.
Proof.
  intros H. unfold kth_in_bounds.
  destruct (Z.ltb_spec (- Z.of_nat m) 0); [|lia].
  destruct (Nat.eqb_spec n 0); [lia|]. simpl.
  destruct (Z.leb_spec 0 (- Z.of_nat m + Z.of_nat n)); [lia|done].
Qed.

Lemma result_mapM_Raise {A B} (f : A → result B) (l : list A) (e : exn) :
  (∀ x, x ∈ l → (∃ y, f x = Ok y) ∨ f x = Raise e) →
  (∃ x, x ∈ l ∧ f x = Raise e) →
  result_mapM f l = Raise e.
Proof.
  induction l as [|x l IH]; intros Hall (x' & Hin & Hx').
  - by apply elem_of_nil in Hin.
  - simpl. destruct (Hall x) as [[y Hy]|Hy]; [by left| |by rewrite Hy].
    rewrite Hy. cbn [mbind result_bind].
    rewrite IH; [done| |].
    + intros z Hz. apply Hall. by right.
    + apply elem_of_cons in Hin as [->|Hin]; [congruence|by exists x'].
Qed.

Lemma correlate_phase_too_many (image : list (list Qc)) (n phase_index : nat)
    (e : library_entry) (grid : list (list Qc)) :
  correlations_grid image e = Ok grid →
  (0 < length (concat grid) < n)%nat →
  correlate_phase image n phase_index e = Raise ValueError.
Proof.
  intros Hgrid Hn. unfold correlate_phase. rewrite Hgrid.
  cbn [mbind result_bind]. unfold argpartition.
  by rewrite kth_out_of_bounds_neg.
Qed.

Lemma correlate_phase_none (image : list (list Qc)) (phase_index : nat)
    (e : library_entry) (grid : list (list Qc)) :
  correlations_grid image e = Ok grid →
  (1 ≤ length (concat grid))%nat →
  correlate_phase image 0 phase_index e
  = if decide (length (concat grid) = 1%nat) then Ok [] else Raise ValueError.
Proof.
  intros Hgrid Hn. unfold correlate_phase. rewrite Hgrid.
  cbn [mbind result_bind]. unfold argpartition.
  change (- Z.of_nat 0)%Z with (Z.of_nat 0).
  rewrite kth_in_bounds_nat by lia. cbn [mbind result_bind].
  assert (Hnin : length (pixel_coords e) ≠ 0%nat).
  { pose proof (correlations_grid_length _ _ _ Hgrid) as Hle.
    destruct grid; [simpl in Hn; lia|simpl in Hle; lia]. }
  rewrite py_div_ok by (by apply Qc_of_nat_ne_0).
  cbn [mbind result_bind result_mapM seq]. unfold last_n. simpl Nat.eqb.
  cbv iota.
  set (src := take_indices 0 (concat grid) (take_indices O _ _)).
  assert (Hsrc : length src = length (concat grid)).
  { unfold src.
    by rewrite !length_take_indices, length_reverse, length_argsort,
      length_take_indices, length_argsort. }
  unfold assign_slot. rewrite Hsrc.
  destruct (Nat.eqb_spec (length (concat grid)) 0) as [?|_]; [lia|].
  case_decide as Hone.
  - rewrite Hone in Hsrc. by destruct src as [|x [|y src]].
  - destruct src as [|x [|y src]]; simpl in Hsrc; [lia|congruence|done].
Qed.

(** When every phase has a grid with at least one cell, a count above the
    number of cells of some phase makes [correlate_library] raise
    [ValueError] instead of padding, and so does a count of 0 when some
    phase has two cells or more. *)
Theorem correlate_library_rejects (image : list (list Qc))
    (library : list library_entry) (n : nat) :
  (∀ e, e ∈ library →
     ∃ grid, correlations_grid image e = Ok grid
       ∧ Forall (λ row, length row = length (orientations e)) grid
       ∧ (1 ≤ length (concat grid))%nat) →
  (∃ e grid, e ∈ library ∧ correlations_grid image e = Ok grid
     ∧ ((length (concat grid) < n)%nat
        ∨ (n = 0%nat ∧ (2 ≤ length (concat grid))%nat))) →
  correlate_library image library n 1 = Raise ValueError.
Proof.
  intros Hlib (e & grid & He & Hg & Hbad). unfold correlate_library. simpl.
  rewrite (result_mapM_Raise _ _ ValueError); [done| |].
  - intros [i e'] Hc. simpl.
    apply list_elem_of_lookup_1 in Hc as [k Hk].
    rewrite list_lookup_imap in Hk.
    destruct (library !! k) as [e''|] eqn:He''; [|done].
    simpl in Hk. injection Hk as -> ->.
    destruct (Hlib e') as (grid' & Hg' & Hrect & Hn);
      [by eapply list_elem_of_lookup_2|].
    destruct (decide (n = 0%nat)) as [->|Hn0].
    { rewrite (correlate_phase_none _ _ _ grid') by done.
      case_decide; [left; by eexists|by right]. }
    destruct (decide (n ≤ length (concat grid'))%nat) as [Hle|Hgt].
    + left.
      destruct (correlate_phase_ok image n i e' grid' Hg' Hrect) as (b & Hb & _);
        [lia|by exists b].
    + right. apply (correlate_phase_too_many _ _ _ _ grid'); [done|lia].
  - apply list_elem_of_lookup_1 in He as [i Hi].
    exists (i, e). split.
    + apply list_elem_of_lookup_2 with i. by rewrite list_lookup_imap, Hi.
    + simpl. destruct (Hlib e) as (grid' & Hg' & _ & Hn);
        [by eapply list_elem_of_lookup_2|].
      assert (grid' = grid) as -> by congruence.
      destruct Hbad as [Hlt|[-> H2]].
      * apply (correlate_phase_too_many _ _ _ _ grid); [done|lia].
      * rewrite (correlate_phase_none _ _ _ grid) by done.
        case_decide; [lia|done].
Qed.

(** ** From correlate_library to crystal_from_template_matching *)

Lemma lookup_concat_block {A} (blocks : list (list A)) (n i : nat) (x : A) :
  Forall (λ b, length b = n) blocks → concat blocks !! i = Some x →
  n ≠ 0%nat ∧ ∃ b, blocks !! (i / n)%nat = Some b ∧ b !! (i mod n)%nat = Some x.
Proof.
  intros Hall Hx.
  assert (Hi : (i < length blocks * n)%nat).
  { rewrite <-(length_concat_uniform _ _ Hall). by eapply lookup_lt_Some. }
  assert (Hn : n ≠ 0%nat) by lia. split; [done|].
  destruct (lookup_lt_is_Some_2 blocks (i / n)) as [b Hb].
  { apply Nat.Div0.div_lt_upper_bound. lia. }
  exists b. split; [done|].
  rewrite <-(lookup_concat_uniform blocks n (i / n) (i mod n) b Hall Hb)
    by (by apply Nat.mod_upper_bound).
  rewrite <-Hx. f_equal. pose proof (Nat.div_mod_eq i n). lia.
Qed.

Lemma best_first_concat {A} (phase : A → nat) (R : A → A → Prop)
    (blocks : list (list A)) (n : nat) :
  (∀ i block, blocks !! i = Some block →
     length block = n ∧ Forall (λ r, phase r = i) block
     ∧ StronglySorted R block) →
  best_first_within_phases phase R (concat blocks).
Proof.
  intros Hb i j x y Hij Hx Hy Hph.
  assert (Hall : Forall (λ b, length b = n) blocks).
  { apply Forall_forall. intros b Hin.
    apply list_elem_of_lookup_1 in Hin as [k Hk]. by apply (Hb k). }
  apply (lookup_concat_block _ n) in Hx as (Hn & bx & Hbx & Hx); [|done].
  apply (lookup_concat_block _ n) in Hy as (_ & by' & Hby & Hy); [|done].
  destruct (Hb _ _ Hbx) as (_ & Hpx & Hsx).
  destruct (Hb _ _ Hby) as (_ & Hpy & _).
  rewrite Forall_forall in Hpx, Hpy.
  assert (Hq : (i / n = j / n)%nat).
  { rewrite <-(Hpx x), <-(Hpy y); [done|by eapply list_elem_of_lookup_2..]. }
  rewrite <-Hq in Hby. simplify_eq.
  apply (StronglySorted_lookup R bx (i mod n) (j mod n)); [done| |done..].
  pose proof (Nat.div_mod_eq i n). pose proof (Nat.div_mod_eq j n).
  rewrite Hq in H. nia.
Qed.

Lemma filter_concat_block {A} (P : A → Prop) `{!∀ x, Decision (P x)}
    (blocks : list (list A)) (blk : list A) :
  blk ∈ blocks → Forall P blk →
  (length blk ≤ length (filter P (concat blocks)))%nat.
Proof.
  intros Hin Hall. induction blocks as [|b blocks IH].
  - by apply elem_of_nil in Hin.
  - simpl. rewrite filter_app, length_app.
    apply elem_of_cons in Hin as [<-|Hin]; [|specialize (IH Hin); lia].
    assert (filter P blk = blk) as ->; [|lia].
    clear IH. induction Hall as [|x l Hx _ IHl]; [done|].
    rewrite filter_cons_True by done. by rewrite IHl.
Qed.

Lemma other_phase_exists {A} (phase : A → nat) (l : list A) (x : A) :
  x ∈ l → n_unique (phase <$> l) ≠ 1%nat → ∃ y, y ∈ l ∧ phase y ≠ phase x.
Proof.
  intros Hx Hne.
  destruct (decide (Forall (λ y, phase y = phase x) l)) as [Hall|Hex].
  - destruct Hne. apply list_elem_of_lookup_1 in Hx as [i Hi].
    destruct l as [|z l]; [done|].
    by apply (n_unique_same phase (z :: l) (phase x) z).
  - apply not_Forall_Exists in Hex; [|apply _].
    apply Exists_exists in Hex as (y & Hy & Hp). by exists y.
Qed.

(** The rows [correlate_library] returns for a non-empty library and at
    least two retained rows per phase meet what the template reducer
    expects: they come best first within each phase, and when the highest
    correlation is not zero the reducer returns the phase, the orientation
    and the correlation of the first row that holds it. *)
Theorem correlate_then_reduce (image : list (list Qc))
    (library : list library_entry) (n : nat) :
  library ≠ [] → (2 ≤ n)%nat →
  (∀ e, e ∈ library →
     ∃ grid, correlations_grid image e = Ok grid
       ∧ Forall (λ row, length row = length (orientations e)) grid
       ∧ (1 ≤ n ≤ length (concat grid))%nat) →
  ∃ zs i b,
    correlate_library image library n 1 = Ok (Some <$> zs)
    ∧ best_first_within_phases tm_phase tm_no_better zs
    ∧ first_best Qclt (tm_correlation <$> zs) i ∧ zs !! i = Some b
    ∧ (tm_correlation b ≠ 0 →
       ∃ e, crystal_from_template_matching zs = Ok e
         ∧ ce_phase e = tm_phase b
         ∧ ce_orientation e = tm_orientation b
         ∧ ce_metrics e !! "correlation" = Some (MScalar (tm_correlation b))).
Proof.
  intros Hne Hn2 Hlib.
  destruct (correlate_library_blockwise image library n
    (λ i e block, length block = n ∧ Forall (λ r, tm_phase r = i) block
       ∧ StronglySorted (λ r r', tm_correlation r' ≤ tm_correlation r) block))
    as (blocks & Hres & Hlen & Hblocks).
  { intros i e He.
    destruct (Hlib e) as (grid & Hg & Hrect & Hn);
      [by eapply list_elem_of_lookup_2|].
    destruct (correlate_phase_ok image n i e grid Hg Hrect Hn)
      as (block & Hb & ? & ? & _ & ?). by exists block. }
  set (zs := concat blocks) in *.
  assert (Hblk : ∀ i block, blocks !! i = Some block →
    length block = n ∧ Forall (λ r, tm_phase r = i) block
    ∧ StronglySorted (λ r r', tm_correlation r' ≤ tm_correlation r) block).
  { intros i block Hi. by destruct (Hblocks i block Hi) as (e & _ & ?). }
  assert (Hbf : best_first_within_phases tm_phase tm_no_better zs)
    by (by apply (best_first_concat _ _ _ n)).
  assert (H01 : ∃ r0 r1, zs !! 0%nat = Some r0 ∧ zs !! 1%nat = Some r1).
  { unfold zs. destruct blocks as [|b0 blocks'].
    - destruct library; [done|simpl in Hlen; lia].
    - destruct (Hblk 0%nat b0 eq_refl) as (Hl0 & _).
      destruct b0 as [|r0 [|r1 b0]]; simpl in Hl0; [lia..|].
      by exists r0, r1. }
  destruct H01 as (r0 & r1 & Hr0 & Hr1).
  destruct (arg_best_nonempty Qclt (tm_correlation <$> zs)) as [i Hi].
  { destruct zs; [done|]. done. }
  change (argmax (tm_correlation <$> zs) = Ok i) in Hi.
  apply argmax_first_best in Hi.
  destruct (lookup_lt_is_Some_2 zs i) as [b Hb].
  { destruct Hi as [Hi _]. by rewrite length_fmap in Hi. }
  exists zs, i, b. split_and!; [done..|].
  intros Hnz.
  destruct (decide (n_unique (tm_phase <$> zs) = 1%nat)) as [H1|H1].
  - pose proof H1 as (p & _ & Hall)%n_unique_one. rewrite Forall_fmap in Hall.
    assert (i = 0%nat) as ->.
    { apply (first_best_unique Qclt (tm_correlation <$> zs)); [done|].
      eapply (first_best_sorted_single tm_phase tm_correlation Qclt zs p);
        [|done|done|].
      - intros j k x y Hjk Hx Hy Hxy. by apply Qcle_not_lt, (Hbf j k).
      - intros x y Hxy Hne'. apply Qcnot_lt_le in Hxy.
        destruct (Qcle_lt_or_eq _ _ Hxy); [done|congruence]. }
    assert (r0 = b) as -> by congruence. eexists. split.
    + by apply (template_single_ok zs b r1).
    + by split_and!.
  - assert (Hbin : b ∈ zs) by (by eapply list_elem_of_lookup_2).
    assert (Hlen2 : (2 ≤ length (filter (λ r, tm_phase r = tm_phase b) zs))%nat).
    { pose proof Hbin as Hbin'. unfold zs in Hbin'.
      apply elem_of_concat in Hbin' as (blk & Hbb & Hblkin).
      apply list_elem_of_lookup_1 in Hblkin as [k Hk].
      destruct (Hblk k blk Hk) as (Hl & Hp & _).
      assert (tm_phase b = k) as ->
        by (rewrite Forall_forall in Hp; by apply Hp).
      etrans; [|apply (filter_concat_block _ blocks blk);
                 [by eapply list_elem_of_lookup_2|done]]. lia. }
    destruct (lookup_lt_is_Some_2
                (tm_correlation <$> filter (λ r, tm_phase r = tm_phase b) zs) 1)
      as [so Hso]; [by rewrite length_fmap|].
    destruct (other_phase_exists tm_phase zs b Hbin H1) as (c & Hc & Hcp).
    destruct (np_max_nonempty
                (tm_correlation <$> filter (λ r, tm_phase r ≠ tm_phase b) zs))
      as [sp Hsp].
    { intros Hnil. apply fmap_nil_inv in Hnil.
      assert (Hin : c ∈ filter (λ r, tm_phase r ≠ tm_phase b) zs)
        by (by apply list_elem_of_filter).
      rewrite Hnil in Hin. by apply elem_of_nil in Hin. }
    eexists. split.
    + apply (template_multi_ok zs i b so sp); try done.
      apply second_largest_descending; [|done]. by apply tm_sorted_scores.
    + by split_and!.
Qed.

(** ** Rounding to the nearest Miller indices *)

Lemma Qcle_shift (a b c d : Qc) : b - a = d - c → c ≤ d → a ≤ b.
Proof.
  intros Heq H. apply Qcle_minus_iff. apply Qcle_minus_iff in H.
  by replace (b + - a) with (d + - c).
Qed.

Lemma Qclt_shift (a b c d : Qc) : b - a = d - c → c < d → a < b.
Proof.
  intros Heq H. apply Qclt_minus_iff. apply Qclt_minus_iff in H.
  by replace (b + - a) with (d + - c).
Qed.

Lemma Qc_floor_le (x : Qc) : Qc_of_Z (Qfloor x) ≤ x.
Proof.
  exact (Qfloor_le x).
Qed.

Lemma Qc_lt_floor (x : Qc) : x < Qc_of_Z (Qfloor x) + 1.
Proof.
  rewrite <-Z2Qc_inj_1, <-Z2Qc_inj_add.
  exact (Qlt_floor x).
Qed.

Lemma rint_nearest (x : Qc) :
  (∃ z : Z, rint x = Qc_of_Z z) ∧ Qcabs (x - rint x) ≤ 1 / 2.
Proof.
  pose proof (Qc_floor_le x) as Hlo. pose proof (Qc_lt_floor x) as Hhi.
  assert (Hnext : Qc_of_Z (Qfloor x + 1) = Qc_of_Z (Qfloor x) + 1)
    by (by rewrite Z2Qc_inj_add, Z2Qc_inj_1).
  unfold rint. set (F := Qc_of_Z (Qfloor x)) in *.
  assert (Hdown : ¬ 1 / 2 < x - F → Qcabs (x - F) ≤ 1 / 2).
  { intros Hr. apply Qcabs_Qcle_condition. split.
    - transitivity 0; [done|]. apply (Qcle_shift _ _ F x); [ring|done].
    - by apply Qcnot_lt_le. }
  assert (Hup : ¬ x - F < 1 / 2 → Qcabs (x - (F + 1)) ≤ 1 / 2).
  { intros Hr. apply Qcabs_Qcle_condition. split.
    - apply (Qcle_shift _ _ (1 / 2) (x - F)); [|by apply Qcnot_lt_le].
      field. done.
    - transitivity 0; [|done]. apply Qclt_le_weak.
      apply (Qclt_shift _ _ x (F + 1)); [ring|done]. }
  repeat case_decide.
  - split; [by eexists|]. apply Hdown. intros H'.
    by apply (Qclt_not_le _ _ H'), Qclt_le_weak.
  - split; [by eexists|]. rewrite Hnext. by apply Hup.
  - destruct (Z.even _).
    + split; [by eexists|]. by apply Hdown.
    + split; [by eexists|]. rewrite Hnext. by apply Hup.
Qed.

Lemma hkl_errors_half (hkls : list vec3) (e : vec3) (x : Qc) :
  e ∈ hkl_errors hkls → x ∈ vec_entries e → 0 ≤ x ≤ 1 / 2.
Proof.
  unfold hkl_errors, rounded_hkls. intros He Hx.
  apply list_elem_of_lookup_1 in He as [i Hi].
  apply lookup_zip_with_Some in Hi as (h & r & -> & Hh & Hr).
  rewrite list_lookup_fmap, Hh in Hr. injection Hr as <-.
  destruct h as [[a b] c]. simpl in Hx.
  repeat (apply elem_of_cons in Hx as [->|Hx];
          [split; [apply Qcabs_nonneg|apply rint_nearest]|]).
  by apply elem_of_nil in Hx.
Qed.

Lemma Qcsum_le (l : list Qc) (t : Qc) :
  Forall (λ y, y ≤ t) l → Qcsum l ≤ Qc_of_nat (length l) * t.
Proof.
  induction 1 as [|y l Hy _ IH]; simpl.
  - change (Qc_of_nat 0) with (Qc_of_Z 0). rewrite Z2Qc_inj_0.
    by replace (0 * t) with 0 by ring.
  - rewrite Qc_of_nat_S.
    replace ((1 + Qc_of_nat (length l)) * t)
      with (t + Qc_of_nat (length l) * t) by ring.
    by apply Qcplus_le_compat.
Qed.

Lemma Qcdiv_le_mult (a m t : Qc) : 0 < m → a ≤ m * t → a / m ≤ t.
Proof.
  intros Hm Ha. unfold Qcdiv.
  assert (Hne : m ≠ 0) by (intros ->; by apply (irreflexivity Qclt 0)).
  replace t with ((m * t) * / m) by (by field).
  by apply Qcmult_le_compat_r; [|apply Qclt_le_weak, Qcinv_pos].
Qed.

Section Rounding.
Context `{G : Geometry}.

Lemma evaluate_rotation_error_half (peaks : list vec3) (lattice_recip : lattice)
    (index_error_tol : Qc) (vector_pair_index : nat) (R : mat3)
    (s : solution) (rhkls : list vec3) :
  evaluate_rotation peaks lattice_recip index_error_tol vector_pair_index R
  = Some (s, rhkls) →
  sol_error_mean s ≤ 1 / 2.
Proof.
  unfold evaluate_rotation.
  set (ehkls := hkl_errors (rotated_hkls peaks lattice_recip R)).
  rewrite count_mask, select_mask_filter.
  set (valid := filter (λ e, vec_max e < index_error_tol) ehkls).
  destruct (Nat.ltb_spec 2 (length valid)) as [Hc|Hc]; [|done].
  intros [= <- <-]. simpl. unfold mean_entries.
  apply Qcdiv_le_mult; [apply Qc_of_nat_pos; lia|].
  rewrite <-length_bind_entries. apply Qcsum_le, Forall_forall.
  intros x Hx. apply list_elem_of_bind in Hx as (e & Hx & He).
  apply list_elem_of_filter in He as [_ He].
  by apply (hkl_errors_half _ e x He Hx).
Qed.

(** The rounded indices of a retained solution are integers, and no entry
    of its error array exceeds one half: each fractional index is rounded
    to a nearest integer.  The mean error is therefore at most one half,
    whatever the tolerance. *)
Theorem evaluate_rotation_rounding (peaks : list vec3) (lattice_recip : lattice)
    (index_error_tol : Qc) (vector_pair_index : nat) (R : mat3)
    (s : solution) (rhkls : list vec3) :
  evaluate_rotation peaks lattice_recip index_error_tol vector_pair_index R
  = Some (s, rhkls) →
  Forall (λ r, Forall (λ x, ∃ z : Z, x = Qc_of_Z z) (vec_entries r)) rhkls
  ∧ Forall (λ e, Forall (λ x, 0 ≤ x ≤ 1 / 2) (vec_entries e)) (sol_ehkls s)
  ∧ sol_error_mean s ≤ 1 / 2.
Proof.
  intros He. split_and!; [| |by eapply evaluate_rotation_error_half];
    revert He; unfold evaluate_rotation; (destruct (_ <? _)%nat; [|done]);
    intros [= <- <-]; simpl.
  - unfold rounded_hkls. rewrite Forall_fmap. apply Forall_forall.
    intros [[a b] c] _. simpl.
    repeat (apply Forall_cons; split; [apply rint_nearest|]). done.
  - apply Forall_forall. intros e He. apply Forall_forall. intros x Hx.
    by eapply hkl_errors_half.
Qed.

(** A tolerance above one half keeps every rotation: with three peaks or
    more each candidate rotation is appended, with a match rate of 1. *)
Theorem evaluate_rotation_wide_tolerance (peaks : list vec3)
    (lattice_recip : lattice) (index_error_tol : Qc)
    (vector_pair_index : nat) (R : mat3) :
  (3 ≤ length peaks)%nat → 1 / 2 < index_error_tol →
  ∃ s rhkls,
    evaluate_rotation peaks lattice_recip index_error_tol vector_pair_index R
    = Some (s, rhkls)
    ∧ sol_R s = R ∧ sol_match_rate s = 1.
Proof.
  intros H3 Htol. unfold evaluate_rotation.
  set (ehkls := hkl_errors (rotated_hkls peaks lattice_recip R)).
  rewrite count_mask, select_mask_filter.
  assert (Hall : filter (λ e, vec_max e < index_error_tol) ehkls = ehkls).
  { assert (Hf : Forall (λ e, vec_max e < index_error_tol) ehkls).
    { apply Forall_forall. intros e He.
      eapply Qcle_lt_trans; [|exact Htol].
      assert (Hm : vec_max e ∈ vec_entries e).
      { destruct e as [[a b] c]. unfold vec_max, Qcmax.
        repeat case_decide; simpl; set_solver. }
      by apply (hkl_errors_half _ e _ He Hm). }
    induction Hf as [|x l Hx _ IH]; [done|].
    rewrite filter_cons_True by done. by rewrite IH. }
  rewrite Hall.
  assert (Hlen : length ehkls = length peaks).
  { unfold ehkls, rotated_hkls. by rewrite length_hkl_errors, length_fmap. }
  rewrite Hlen.
  destruct (Nat.ltb_spec 2 (length peaks)) as [_|?]; [|lia].
  destruct (Nat.eqb_spec (length peaks) 0) as [?|_]; [lia|].
  eexists _, _. split; [done|]. simpl. split; [done|].
  unfold Qcdiv. apply Qcmult_inv_r, Qc_of_nat_ne_0. lia.
Qed.

End Rounding.

(** ** From match_vectors to crystal_from_vector_matching *)

Section Pipeline.
Context `{G : Geometry}.

Lemma match_phases_row_origin (peaks : list vec3)
    (library : list (vector_phase * lattice))
    (mag_tol angle_tol tol : Qc) (n_peaks_to_index n_best : nat)
    (rows : list vector_match) (rhkls : list (list vec3)) (r : vector_match) :
  match_phases peaks library mag_tol angle_tol tol n_peaks_to_index n_best
  = Ok (rows, rhkls) →
  r ∈ rows →
  r = dummy_row
  ∨ ∃ i phase lat cands s rh,
      library !! i = Some (phase, lat)
      ∧ phase_candidates peaks phase lat mag_tol angle_tol tol n_peaks_to_index
        = Ok cands
      ∧ (s, rh) ∈ cands ∧ r = solution_row i s.
Proof.
  intros Hres Hr.
  apply match_phases_inv in Hres as (per & -> & _ & Hlen & Hper).
  apply elem_of_concat in Hr as (blk & Hr & Hblk).
  apply list_elem_of_fmap in Hblk as (y & -> & Hy).
  apply list_elem_of_lookup_1 in Hy as [i Hi].
  destruct (lookup_lt_is_Some_2 library i) as [[phase lat] Hl].
  { rewrite <-Hlen. by eapply lookup_lt_Some. }
  destruct (Hper i phase lat y Hl Hi) as (cands & Hc & ->). simpl in Hr.
  apply phase_rows_elem_of in Hr as [->|(s & Hs & ->)]; [by left|right].
  apply list_elem_of_fmap in Hs as ([s' rh] & -> & Hin).
  by exists i, phase, lat, cands, s', rh.
Qed.

Lemma solution_row_not_dummy (peaks : list vec3) (phase : vector_phase)
    (lat : lattice) (mag_tol angle_tol tol : Qc) (n_peaks_to_index i : nat)
    (cands : list (solution * list vec3)) (s : solution) (rh : list vec3) :
  phase_candidates peaks phase lat mag_tol angle_tol tol n_peaks_to_index
  = Ok cands →
  (s, rh) ∈ cands →
  0 < vm_match_rate (solution_row i s)
  ∧ vm_total_error (solution_row i s) ≤ 1 / 2
  ∧ solution_row i s ≠ dummy_row.
Proof.
  intros Hc Hin.
  destruct (phase_candidates_evaluated _ _ _ _ _ _ _ _ _ Hc Hin) as (vpi & R & He).
  pose proof (evaluate_rotation_error_half _ _ _ _ _ _ _ He) as Herr.
  apply evaluate_rotation_bounds in He as [[Hrate _] _].
  split_and!; [done..|].
  intros Heq. apply (f_equal vm_match_rate) in Heq. simpl in Heq.
  rewrite Heq in Hrate. by apply (irreflexivity Qclt 0).
Qed.

(** When [match_vectors] finds a solution in some phase, the entry the
    vector reducer builds from its rows is never taken from a dummy row:
    it carries the phase, the rotation and the match rate of a row that
    holds a solution, so its match rate is positive. *)
Theorem vector_pipeline_prefers_solutions (peaks : list vec3)
    (library : list (vector_phase * lattice))
    (mag_tol angle_tol index_error_tol : Qc) (n_peaks_to_index n_best : nat)
    (rows : list vector_match) (rhkls : list (list vec3)) (e : crystal_entry) :
  match_vectors (FloatArray peaks) library mag_tol angle_tol index_error_tol
    n_peaks_to_index n_best = Ok (rows, rhkls) →
  (∃ r, r ∈ rows ∧ r ≠ dummy_row) →
  crystal_from_vector_matching rows = Ok e →
  ∃ b, b ∈ rows ∧ b ≠ dummy_row
    ∧ ce_phase e = vm_phase b ∧ ce_orientation e = mat2euler (vm_R b)
    ∧ ce_metrics e !! "match_rate" = Some (MScalar (vm_match_rate b))
    ∧ 0 < vm_match_rate b.
Proof.
  unfold match_vectors. intros Hres (r & Hr & Hnd) He.
  destruct (match_phases_row_origin _ _ _ _ _ _ _ _ _ r Hres Hr)
    as [?|(i & phase & lat & cands & s & rh & Hl & Hc & Hin & ->)]; [done|].
  destruct (solution_row_not_dummy _ _ _ _ _ _ _ i _ _ _ Hc Hin)
    as (_ & Hrerr & _).
  assert (Hsol : ∀ b, b ∈ rows → b ≠ dummy_row → 0 < vm_match_rate b).
  { intros b Hb Hbd.
    destruct (match_phases_row_origin _ _ _ _ _ _ _ _ _ b Hres Hb)
      as [?|(i' & phase' & lat' & cands' & s' & rh' & _ & Hc' & Hin' & ->)];
      [done|].
    by destruct (solution_row_not_dummy _ _ _ _ _ _ _ i' _ _ _ Hc' Hin'). }
  destruct (decide (n_unique (vm_phase <$> rows) = 1%nat)) as [H1|H1].
  - apply vector_single_inv in He as (b & s1 & Hb & _ & _ & ->); [|done].
    assert (Hbin : b ∈ rows) by (by eapply list_elem_of_lookup_2).
    assert (Hbd : b ≠ dummy_row); [|by exists b; split_and!; auto].
    intros ->.
    assert (Hi0 : i = 0%nat).
    { by apply (n_unique_one_phase vm_phase rows (solution_row i s) dummy_row). }
    subst i.
    assert (Hn : (1 ≤ n_peaks_to_index)%nat).
    { destruct n_peaks_to_index; [|lia]. exfalso.
      unfold phase_candidates in Hc.
      apply bind_Ok_inv in Hc as (ids & Hids & [= <-]).
      apply list_elem_of_bind in Hin as ([k pr] & _ & Hk).
      apply list_elem_of_lookup_1 in Hk as [m Hm].
      rewrite list_lookup_imap in Hm.
      destruct (combinations2 ids !! m) as [pr'|] eqn:Hpr; [|done].
      assert (Hids0 : ids = []).
      { destruct peaks as [|p [|q peaks']].
        - by injection Hids.
        - by injection Hids.
        - rewrite choose_peak_ids_none_of_many in Hids by (simpl; lia). done. }
      by rewrite Hids0 in Hpr. }
    destruct (match_phases_rows peaks library mag_tol angle_tol index_error_tol
                n_peaks_to_index n_best Hn)
      as (rows' & rhkls' & Hres' & Hlen & Hrows).
    rewrite Hres in Hres'. injection Hres' as <- <-.
    destruct (Hrows 0%nat phase lat Hl) as (cands' & Hc' & Hslots).
    rewrite Hc in Hc'. injection Hc' as <-.
    assert (Hnb : (0 < n_best)%nat).
    { destruct n_best; [|lia]. rewrite Nat.mul_0_r in Hlen.
      destruct rows; [by apply elem_of_nil in Hr|done]. }
    specialize (Hslots 0%nat Hnb). simpl in Hslots. rewrite Hb in Hslots.
    destruct (_sort_solutions (fst <$> cands) n_best !! 0%nat) as [s0|] eqn:Hs0.
    + assert (Heq : solution_row 0 s0 = dummy_row)
        by (simpl in Hslots; congruence).
      apply list_elem_of_lookup_2, sort_solutions_elem_of in Hs0.
      apply list_elem_of_fmap in Hs0 as ([s0' rh0] & -> & Hin0).
      by destruct (solution_row_not_dummy _ _ _ _ _ _ _ 0%nat _ _ _ Hc Hin0)
        as (_ & _ & Hne).
    + apply lookup_ge_None in Hs0. rewrite length_sort_solutions in Hs0.
      rewrite length_fmap in Hs0.
      destruct cands; [by apply elem_of_nil in Hin|simpl in Hs0; lia].
  - apply vector_multi_inv in He
      as (j & b & so & sp & Hj & Hb & _ & _ & _ & _ & ->); [|done].
    assert (Hbin : b ∈ rows) by (by eapply list_elem_of_lookup_2).
    assert (Hbd : b ≠ dummy_row); [|by exists b; split_and!; auto].
    intros ->.
    assert (Hmin : vm_total_error dummy_row ≤ vm_total_error (solution_row i s)).
    { rewrite <-(qnth_fmap vm_total_error rows j dummy_row Hb).
      apply first_best_min; [done|]. apply list_elem_of_fmap. by eexists. }
    assert (Hlt : 1 / 2 < vm_total_error dummy_row) by done.
    apply (Qclt_not_le _ _ Hlt). by etrans.
Qed.

End Pipeline.

(** * The further properties at sample inputs *)

(** The ranker asked for two of two tied solutions returns both. *)
Lemma sort_solutions_all_witness :
  _sort_solutions [tie_first; tie_second] 2 ≡ₚ [tie_first; tie_second].
Proof. apply (sort_solutions_all [tie_first; tie_second] 2). simpl. lia. Defined.

(** One solution of two is the first row of the full ranking. *)
Lemma sort_solutions_prefix_witness :
  _sort_solutions [tie_first; tie_second] 1
  = take 1 (_sort_solutions [tie_first; tie_second] 2).
Proof. apply (sort_solutions_prefix [tie_first; tie_second] 1 2). lia. Defined.

(** The solution of the identity rotation on the sample peaks. *)
Lemma evaluate_rotation_solution_witness :
  ∃ s rhkls,
    evaluate_rotation (G := sample_geometry) sample_peaks tt (Q2Qc 0.1) 0
      identity3 = Some (s, rhkls)
    ∧ (3 ≤ length sample_peaks)%nat
    ∧ length (sol_ehkls s) = length sample_peaks
    ∧ length rhkls = length sample_peaks
    ∧ sol_vector_pair_index s = 0%nat
    ∧ 0 < sol_match_rate s ≤ 1
    ∧ 0 ≤ sol_error_mean s < Q2Qc 0.1.
Proof.
  eexists _, _. split; [vm_compute; reflexivity|].
  apply (evaluate_rotation_solution (G := sample_geometry)
           sample_peaks tt (Q2Qc 0.1) 0 identity3).
  vm_compute. reflexivity.
Defined.

(** A phase with one solution and two retained slots: one solution row and
    one dummy row. *)
Lemma match_vectors_row_invariant_witness :
  ∃ rows rhkls,
    match_vectors (G := sample_geometry) (FloatArray sample_peaks)
      ((near_phase, tt) :: nil) (Q2Qc 0.1) (Q2Qc 0.1) (Q2Qc 0.1) 3 2
    = Ok (rows, rhkls)
    ∧ Forall (λ r,
        r = dummy_row
        ∨ ((vm_phase r < length ((near_phase, tt) :: nil))%nat
           ∧ 0 < vm_match_rate r ≤ 1
           ∧ 0 ≤ vm_total_error r < Q2Qc 0.1
           ∧ length (vm_ehkls r) = length sample_peaks)) rows.
Proof.
  apply (match_vectors_row_invariant (G := sample_geometry) sample_peaks
           ((near_phase, tt) :: nil) (Q2Qc 0.1) (Q2Qc 0.1) (Q2Qc 0.1) 3 2).
  lia.
Defined.

(** Two peaks against one phase: two dummy rows. *)
Lemma match_vectors_few_peaks_witness :
  match_vectors (G := sample_geometry) (FloatArray (take 2 sample_peaks))
    ((near_phase, tt) :: nil) (Q2Qc 0.1) (Q2Qc 0.1) (Q2Qc 0.1) 3 2
  = Ok (replicate (length ((near_phase, tt) :: nil) * 2) dummy_row, []).
Proof.
  apply (match_vectors_few_peaks (G := sample_geometry) (take 2 sample_peaks)
           ((near_phase, tt) :: nil) (Q2Qc 0.1) (Q2Qc 0.1) (Q2Qc 0.1) 3 2);
    simpl; lia.
Defined.

(** One phase with one solution: one array of rounded indices, three rows. *)
Lemma match_vectors_rhkls_witness :
  ∃ rows rhkls,
    match_vectors (G := sample_geometry) (FloatArray sample_peaks)
      ((near_phase, tt) :: nil) (Q2Qc 0.1) (Q2Qc 0.1) (Q2Qc 0.1) 3 2
    = Ok (rows, rhkls)
    ∧ Forall (λ a, length a = length sample_peaks) rhkls.
Proof.
  destruct (match_vectors_rhkls (G := sample_geometry) sample_peaks
              ((near_phase, tt) :: nil) (Q2Qc 0.1) (Q2Qc 0.1) (Q2Qc 0.1) 3 2)
    as (rows & rhkls & counts & Hres & _ & _ & _ & Hall); [lia|].
  by exists rows, rhkls.
Defined.

(** Two peaks, one phase, two retained slots. *)
Lemma few_peaks_crystal_witness :
  ∃ rows rhkls e,
    match_vectors (G := sample_geometry) (FloatArray (take 2 sample_peaks))
      ((near_phase, tt) :: nil) (Q2Qc 0.1) (Q2Qc 0.1) (Q2Qc 0.1) 3 2
    = Ok (rows, rhkls)
    ∧ crystal_from_vector_matching (G := sample_geometry) rows = Ok e
    ∧ ce_phase e = 0%nat
    ∧ ce_metrics e !! "orientation_reliability" = Some (MScalar 0).
Proof.
  destruct (few_peaks_crystal (G := sample_geometry) (take 2 sample_peaks)
              ((near_phase, tt) :: nil) (Q2Qc 0.1) (Q2Qc 0.1) (Q2Qc 0.1) 3 2)
    as (rows & rhkls & e & Hres & He & Hp & _ & _ & _ & _ & Hrel & _);
    [simpl; lia|lia|simpl; lia|].
  by exists rows, rhkls, e.
Defined.

(** Correlations 0.9 and 0.5 in one phase. *)
Lemma template_reliability_percent_witness :
  ∃ e, crystal_from_template_matching [tm_row 0 0.9; tm_row 0 0.5] = Ok e
    ∧ (∃ q, ce_metrics e !! "orientation_reliability" = Some (MScalar q)
            ∧ 0 ≤ q ≤ Qc_of_Z 100)
    ∧ ∀ q, ce_metrics e !! "phase_reliability" = Some (MScalar q) →
           0 ≤ q ≤ Qc_of_Z 100.
Proof.
  eexists. split; [vm_compute; reflexivity|].
  apply (template_reliability_percent [tm_row 0 0.9; tm_row 0 0.5]).
  - best_first_literal.
  - repeat constructor; by vm_compute.
  - vm_compute. reflexivity.
Defined.


Lemma pair_entry_grid (e : library_entry) :
  e ∈ [pair_entry; pair_entry] →
  ∃ grid, correlations_grid pair_image e = Ok grid
    ∧ Forall (λ row, length row = length (orientations e)) grid
    ∧ (1 ≤ 2 ≤ length (concat grid))%nat.
Proof.
  intros He.
  assert (e = pair_entry) as ->.
  { apply elem_of_cons in He as [->|He]; [done|].
    by apply list_elem_of_singleton in He. }
  eexists. split; [vm_compute; reflexivity|].
  split_and!; [by repeat constructor|simpl; lia|simpl; lia].
Qed.

(** Two phases of two templates each, both rows retained. *)
Lemma correlate_library_top_cells_witness :
  ∃ blocks,
    correlate_library pair_image [pair_entry; pair_entry] 2 1
    = Ok (Some <$> concat blocks)
    ∧ length blocks = 2%nat.
Proof.
  destruct (correlate_library_top_cells pair_image [pair_entry; pair_entry] 2)
    as (blocks & Hres & Hlen & _); [apply pair_entry_grid|].
  by exists blocks.
Defined.

(** Two rows asked of a phase with a single template. *)
Lemma correlate_library_rejects_witness :
  correlate_library tiny_image (tiny_entry :: nil) 2 1 = Raise ValueError.
Proof.
  apply (correlate_library_rejects tiny_image (tiny_entry :: nil) 2).
  - intros e He. apply list_elem_of_singleton in He as ->.
    eexists. split; [vm_compute; reflexivity|].
    split; [by repeat constructor|simpl; lia].
  - eexists tiny_entry, _. split_and!;
      [by apply list_elem_of_singleton|vm_compute; reflexivity|].
    left. simpl. lia.
Defined.

(** Two phases of two templates each, reduced to one entry. *)
Lemma correlate_then_reduce_witness :
  ∃ zs,
    correlate_library pair_image [pair_entry; pair_entry] 2 1 = Ok (Some <$> zs)
    ∧ best_first_within_phases tm_phase tm_no_better zs.
Proof.
  destruct (correlate_then_reduce pair_image [pair_entry; pair_entry] 2)
    as (zs & i & b & Hres & Hbf & _); [done|lia|apply pair_entry_grid|].
  by exists zs.
Defined.

(** The identity rotation on the sample peaks. *)
Lemma evaluate_rotation_rounding_witness :
  ∃ s rhkls,
    evaluate_rotation (G := sample_geometry) sample_peaks tt (Q2Qc 0.1) 0
      identity3 = Some (s, rhkls)
    ∧ Forall (λ r, Forall (λ x, ∃ z : Z, x = Qc_of_Z z) (vec_entries r)) rhkls
    ∧ Forall (λ e, Forall (λ x, 0 ≤ x ≤ 1 / 2) (vec_entries e)) (sol_ehkls s)
    ∧ sol_error_mean s ≤ 1 / 2.
Proof.
  eexists _, _. split; [vm_compute; reflexivity|].
  apply (evaluate_rotation_rounding (G := sample_geometry)
           sample_peaks tt (Q2Qc 0.1) 0 identity3).
  vm_compute. reflexivity.
Defined.

(** A tolerance of 0.6 on the three sample peaks. *)
Lemma evaluate_rotation_wide_tolerance_witness :
  ∃ s rhkls,
    evaluate_rotation (G := sample_geometry) sample_peaks tt (Q2Qc 0.6) 0
      identity3 = Some (s, rhkls)
    ∧ sol_R s = identity3 ∧ sol_match_rate s = 1.
Proof.
  apply (evaluate_rotation_wide_tolerance (G := sample_geometry)
           sample_peaks tt (Q2Qc 0.6) 0 identity3); [simpl; lia|by vm_compute].
Defined.

(** One phase with one solution and one dummy row: the entry is the
    solution's. *)
Lemma vector_pipeline_prefers_solutions_witness :
  ∃ rows rhkls e b,
    match_vectors (G := sample_geometry) (FloatArray sample_peaks)
      ((near_phase, tt) :: nil) (Q2Qc 0.1) (Q2Qc 0.1) (Q2Qc 0.1) 3 2
    = Ok (rows, rhkls)
    ∧ crystal_from_vector_matching (G := sample_geometry) rows = Ok e
    ∧ b ∈ rows ∧ b ≠ dummy_row ∧ ce_phase e = vm_phase b
    ∧ 0 < vm_match_rate b.
Proof.
  eassert (Hres : match_vectors (G := sample_geometry) (FloatArray sample_peaks)
                    ((near_phase, tt) :: nil) (Q2Qc 0.1) (Q2Qc 0.1) (Q2Qc 0.1)
                    3 2 = Ok (_, _)) by (vm_compute; reflexivity).
  match type of Hres with
  | _ = Ok (?rows, _) =>
      eassert (He : crystal_from_vector_matching (G := sample_geometry) rows
                    = Ok _) by (vm_compute; reflexivity);
      assert (Hex : ∃ r, r ∈ rows ∧ r ≠ dummy_row)
  end.
  { eexists. split; [left|].
    intros Heq. apply (f_equal (λ r, length (vm_ehkls r))) in Heq.
    vm_compute in Heq. discriminate. }
  destruct (vector_pipeline_prefers_solutions (G := sample_geometry)
              sample_peaks ((near_phase, tt) :: nil)
              (Q2Qc 0.1) (Q2Qc 0.1) (Q2Qc 0.1) 3 2 _ _ _ Hres Hex He)
    as (b & Hb & Hd & Hp & _ & _ & Hr).
  eexists _, _, _, b. split_and!; [exact Hres|exact He|done..].
Defined.

(** No index requested of three peaks. *)
Lemma choose_peak_ids_degenerate_witness :
  _choose_peak_ids (G := sample_geometry) sample_peaks 0 = Raise ValueError.
Proof.
  apply (proj2 (proj2 (choose_peak_ids_degenerate (G := sample_geometry)))).
  simpl. lia.
Defined.

(** A single template row. *)
Lemma reducers_need_two_rows_witness :
  crystal_from_template_matching (tm_row 0 0.9 :: nil) = Raise IndexError.
Proof.
  apply (proj1 (reducers_need_two_rows (G := sample_geometry))
           (tm_row 0 0.9 :: nil)).
  simpl. lia.
Defined.
